(** * metadata_change_handler.hpp: the remote metadata change protocol

    A shallow embedding of [metadata_change_handler_t<metadata_t>] and of its
    nested client class [metadata_change_request_t].  The coroutines of the
    source are cut at their suspension points ([waiter.wait()]): the code
    between two suspension points runs atomically, and a scheduler event
    resumes a coroutine whose [wait_any_t] has been satisfied.  Mailbox
    callbacks ([remote_change_request], [handle_commit], [handle_ack], the
    promise's [pulse]) are delivery events. *)

From stdpp Require Import base option list gmap sets fin_maps.

Set Default Proof Using "Type".

(** ** Addresses and messages *)

Definition peer_id := nat.
Definition mailbox_id := nat.

(** [mailbox_t<...>::address_t]: a peer and a mailbox on it. *)
Record address_t := mk_address { get_peer : peer_id; get_mailbox : mailbox_id }.

(** The default-constructed address, [address_t()]. *)
Definition nil_address : address_t := mk_address 0 0.

#[global] Instance address_eq_dec : EqDecision address_t.
Proof. solve_decision. Defined.

(** The template parameter [metadata_t] with what the code uses of it: its
    default constructor and the [join] of the semilattice view. *)
Class Metadata (metadata_t : Type) := {
  semilattice_join : metadata_t → metadata_t → metadata_t;
  metadata_default : metadata_t;
}.

(** What running a piece of code at a scheduling point gives. *)
Inductive outcome (S : Type) :=
| Done (s : S)
| Fatal                                      (* a guarantee() failed *)
| Blocked.                                   (* not enabled: the wait is not over *)
Arguments Done {S} s.
Arguments Fatal {S}.
Arguments Blocked {S}.

Section protocol.
Context {metadata_t : Type} `{!Metadata metadata_t}.

Record result_msg_t := mk_result_msg { value : bool }.

Record commit_msg_t := mk_commit_msg {
  commit : bool;
  metadata : metadata_t;
  result_mailbox : address_t;
}.

Record ack_msg_t := mk_ack_msg {
  ack_metadata : metadata_t;
  ack_commit_mailbox_address : address_t;
}.

Record request_msg_t := mk_request_msg { ack_mailbox : address_t }.

(** What [send] puts on the wire. *)
Inductive message :=
| msg_request (m : request_msg_t)
| msg_ack (m : ack_msg_t)
| msg_commit (m : commit_msg_t)
| msg_result (m : result_msg_t).

(** ** The handler *)

(** Coroutines are numbered as they are spawned.  The two [cond_t] locals of
    [remote_change_request_coro] live in the coroutine's frame, so a
    [cond_t*] held by the handler is the number of the coroutine whose frame
    holds the condition. *)
Definition coro_id := nat.

Record coro_frame := mk_frame {
  frame_ack_mailbox : address_t;
  invalid_condition : bool;      (* cond_t invalid_condition: is it pulsed *)
  commit_done : bool;            (* cond_t commit_done: is it pulsed *)
}.

Inductive task :=
| coro_spawned (ack : address_t)             (* spawn_sometime done, body not started *)
| coro_waiting (f : coro_frame)              (* suspended in waiter.wait(), line 166 *)
| send_result_spawned (result : bool) (to : address_t).

(** Observable actions, in the order in which they happen.  The trace is
    history only: no code reads it. *)
Inductive obs :=
| obs_join (m : metadata_t)                  (* metadata_view->join(m) *)
| obs_insert (c : coro_id)                   (* coro_invalid_conditions.insert *)
| obs_erase (c : coro_id)                    (* coro_invalid_conditions.erase *)
| obs_send (to : address_t) (m : message).   (* send(mailbox_manager, to, m) *)

Inductive lifecycle := alive | draining | released.

Record handler := mk_handler {
  mailbox_manager : peer_id;                 (* the node the handler's mailboxes are on *)
  metadata_view : metadata_t;
  coro_invalid_conditions : gset coro_id;    (* std::set<cond_t*> *)
  drainer : nat;                             (* auto_drainer_t: locks outstanding *)
  tasks : gmap coro_id task;
  next_coro : coro_id;
  disconnected : gset peer_id;               (* connectivity service: peers lost *)
  phase : lifecycle;
  trace : list obs;
}.

Definition new_handler (me : peer_id) (m : metadata_t) : handler :=
  mk_handler me m ∅ 0 ∅ 0 ∅ alive [].

(** *** State updates *)

Definition emit (o : obs) (h : handler) : handler :=
  mk_handler (mailbox_manager h) (metadata_view h) (coro_invalid_conditions h)
    (drainer h) (tasks h) (next_coro h) (disconnected h) (phase h) (trace h ++ [o]).

Definition set_tasks (t : gmap coro_id task) (h : handler) : handler :=
  mk_handler (mailbox_manager h) (metadata_view h) (coro_invalid_conditions h)
    (drainer h) t (next_coro h) (disconnected h) (phase h) (trace h).

Definition set_registry (s : gset coro_id) (h : handler) : handler :=
  mk_handler (mailbox_manager h) (metadata_view h) s
    (drainer h) (tasks h) (next_coro h) (disconnected h) (phase h) (trace h).

Definition set_view (m : metadata_t) (h : handler) : handler :=
  mk_handler (mailbox_manager h) m (coro_invalid_conditions h)
    (drainer h) (tasks h) (next_coro h) (disconnected h) (phase h) (trace h).

Definition set_drainer (n : nat) (h : handler) : handler :=
  mk_handler (mailbox_manager h) (metadata_view h) (coro_invalid_conditions h)
    n (tasks h) (next_coro h) (disconnected h) (phase h) (trace h).

Definition set_next_coro (n : coro_id) (h : handler) : handler :=
  mk_handler (mailbox_manager h) (metadata_view h) (coro_invalid_conditions h)
    (drainer h) (tasks h) n (disconnected h) (phase h) (trace h).

Definition set_disconnected (s : gset peer_id) (h : handler) : handler :=
  mk_handler (mailbox_manager h) (metadata_view h) (coro_invalid_conditions h)
    (drainer h) (tasks h) (next_coro h) s (phase h) (trace h).

Definition set_phase (p : lifecycle) (h : handler) : handler :=
  mk_handler (mailbox_manager h) (metadata_view h) (coro_invalid_conditions h)
    (drainer h) (tasks h) (next_coro h) (disconnected h) p (trace h).

(** *** The collaborators

    The sources of the semilattice view, of the mailboxes, of [cond_t],
    [wait_any_t], [disconnect_watcher_t], [coro_t], [promise_t] and
    [auto_drainer_t] are not among the files of the repository at hand. *)

(** Modelled from the spec: [metadata_view->join(m)] merges [m] into the
    store (section 2: snapshot read and merge). *)
Definition view_join (m : metadata_t) (h : handler) : handler :=
  emit (obs_join m) (set_view (semilattice_join (metadata_view h) m) h).

(** Modelled from the spec: [send(mailbox_manager, to, m)] hands the message
    to the transport and returns; sending to a peer that is gone is a silent
    no-op (section 6). *)
Definition send (to : address_t) (m : message) (h : handler) : handler :=
  emit (obs_send to m) h.

(** Modelled from the spec: [cond->pulse_if_not_already_pulsed()] through a
    [cond_t*] of the registry; a condition is a one-shot flag (section 3). *)
Definition pulse_if_not_already_pulsed (c : coro_id) (h : handler) : handler :=
  match tasks h !! c with
  | Some (coro_waiting f) =>
      if invalid_condition f then h
      else set_tasks (<[c := coro_waiting (mk_frame (frame_ack_mailbox f) true (commit_done f))]> (tasks h)) h
  | _ => h
  end.

(** Modelled from the spec: [invalid_condition->is_pulsed()] *)
Definition is_pulsed (c : coro_id) (h : handler) : bool :=
  match tasks h !! c with
  | Some (coro_waiting f) => invalid_condition f
  | _ => false
  end.

(** Modelled from the spec: [done->pulse()]; pulsing a condition that is
    pulsed already leaves it pulsed. *)
Definition pulse_done (c : coro_id) (h : handler) : handler :=
  match tasks h !! c with
  | Some (coro_waiting f) =>
      set_tasks (<[c := coro_waiting (mk_frame (frame_ack_mailbox f) (invalid_condition f) true)]> (tasks h)) h
  | _ => h
  end.

(** Modelled from the spec: [auto_drainer_t] (concurrency/auto_drainer.hpp is
    not part of the sources).  It counts the [lock_t] objects alive; a task
    spawned with a lock holds it until its function returns, and the
    drainer's destructor waits until no lock is left. *)
Definition acquire_lock (h : handler) : handler := set_drainer (S (drainer h)) h.
Definition release_lock (h : handler) : handler := set_drainer (pred (drainer h)) h.

(** Modelled from the spec:
    [coro_t::spawn_sometime(std::bind(f, this, ..., auto_drainer_t::lock_t(&drainer)))]
    makes a task that runs at some later scheduling point (section 5); the
    lock is taken when the task is made. *)
Definition spawn_sometime (t : task) (h : handler) : handler :=
  set_next_coro (S (next_coro h))
    (set_tasks (<[next_coro h := t]> (tasks h)) (acquire_lock h)).

(** The coroutine function returns: its frame and its lock go away. *)
Definition finish (c : coro_id) (h : handler) : handler :=
  release_lock (set_tasks (delete c (tasks h)) h).

(** Modelled from the spec:
    [disconnect_watcher_t(connectivity_service, peer).is_pulsed()], the one-shot
    signal that the peer became unreachable (section 2). *)
Definition dc_watcher_is_pulsed (p : peer_id) (h : handler) : bool :=
  bool_decide (p ∈ disconnected h).

(** *** The member functions *)

(** [metadata_t get()] *)
Definition get (h : handler) : metadata_t := metadata_view h.

(** [get_request_mailbox_address()]; the request mailbox is mailbox 0 of the
    node, the commit mailbox of coroutine [c] is mailbox [c + 1]. *)
Definition get_request_mailbox_address (h : handler) : address_t :=
  mk_address (mailbox_manager h) 0.

(** The address of the commit mailbox that coroutine [c] creates. *)
Definition commit_mailbox_of (h : handler) (c : coro_id) : address_t :=
  mk_address (mailbox_manager h) (S c).

(** [void update(const metadata_t &metadata)], lines 64-70 *)
Definition update (m : metadata_t) (h : handler) : handler :=
  view_join m
    (foldr pulse_if_not_already_pulsed h (elements (coro_invalid_conditions h))).

(** [void remote_change_request(request_msg_t msg)], lines 145-151 *)
Definition remote_change_request (msg : request_msg_t) (h : handler) : handler :=
  spawn_sometime (coro_spawned (ack_mailbox msg)) h.

(** [remote_change_request_coro], lines 155-166: up to [waiter.wait()] *)
Definition remote_change_request_coro_begin (c : coro_id) (ack : address_t)
    (h : handler) : handler :=
  let h1 := set_tasks (<[c := coro_waiting (mk_frame ack false false)]> (tasks h)) h in
  let h2 := emit (obs_insert c) (set_registry ({[c]} ∪ coro_invalid_conditions h1) h1) in
  send ack (msg_ack (mk_ack_msg (get h2) (commit_mailbox_of h2 c))) h2.

(** Modelled from the spec: [wait_any_t waiter(&commit_done, &dc_watcher)];
    the wait is over when one of the two is pulsed (section 5). *)
Definition wait_any (f : coro_frame) (h : handler) : bool :=
  commit_done f || dc_watcher_is_pulsed (get_peer (frame_ack_mailbox f)) h.

(** [remote_change_request_coro], lines 168-170: after [waiter.wait()] *)
Definition remote_change_request_coro_resume (c : coro_id) (f : coro_frame)
    (h : handler) : outcome handler :=
  if commit_done f || dc_watcher_is_pulsed (get_peer (frame_ack_mailbox f)) h then
    Done (finish c
            (emit (obs_erase c) (set_registry (coro_invalid_conditions h ∖ {[c]}) h)))
  else Fatal.

(** [void send_result(bool result, address_t result_mailbox, lock_t)], lines 190-192 *)
Definition send_result (c : coro_id) (result : bool) (to : address_t)
    (h : handler) : handler :=
  finish c (send to (msg_result (mk_result_msg result)) h).

(** [void handle_commit(cond_t *done, const cond_t *invalid_condition,
    commit_msg_t msg)], lines 172-188; both pointers go to the frame of [c]. *)
Definition handle_commit (c : coro_id) (msg : commit_msg_t) (h : handler) : handler :=
  let h1 :=
    if commit msg then
      let success := negb (is_pulsed c h) in
      let h' := if success then update (metadata msg) h else h in
      spawn_sometime (send_result_spawned success (result_mailbox msg)) h'
    else h in
  pulse_done c h1.

(** [~metadata_change_handler_t()], lines 50-52: the body *)
Definition destructor_body (h : handler) : outcome handler :=
  if decide (coro_invalid_conditions h = ∅) then Done (set_phase draining h)
  else Fatal.

(** After the body the members are destroyed in reverse order of declaration:
    [drainer] first, which waits for every lock to be released. *)
Definition destructor_drained (h : handler) : outcome handler :=
  match drainer h with
  | 0 => Done (set_phase released h)
  | S _ => Blocked
  end.

(** ** The scheduler: what can happen to a handler *)

Inductive event :=
| ev_request (msg : request_msg_t)           (* a message reaches request_mailbox *)
| ev_commit (c : coro_id) (msg : commit_msg_t) (* a message reaches c's commit_mailbox *)
| ev_schedule (c : coro_id)                  (* the scheduler runs or resumes c *)
| ev_disconnect (p : peer_id)                (* the connectivity service loses p *)
| ev_update (m : metadata_t)                 (* the owner calls update(m) *)
| ev_destroy                                 (* the owner destroys the handler *)
| ev_drained.                                (* the drainer's wait is over *)

Definition schedule (c : coro_id) (h : handler) : outcome handler :=
  match tasks h !! c with
  | Some (coro_spawned ack) => Done (remote_change_request_coro_begin c ack h)
  | Some (coro_waiting f) =>
      if wait_any f h then remote_change_request_coro_resume c f h else Blocked
  | Some (send_result_spawned result to) => Done (send_result c result to h)
  | None => Blocked
  end.

Definition step (e : event) (h : handler) : outcome handler :=
  match phase h with
  | released => Blocked
  | _ =>
    match e with
    | ev_request msg => Done (remote_change_request msg h)
    | ev_commit c msg =>
        match tasks h !! c with
        | Some (coro_waiting _) => Done (handle_commit c msg h)
        | _ => Done h                        (* no such mailbox: the message is dropped *)
        end
    | ev_schedule c => schedule c h
    | ev_disconnect p => Done (set_disconnected ({[p]} ∪ disconnected h) h)
    | ev_update m => Done (update m h)
    | ev_destroy =>
        match phase h with
        | alive => destructor_body h
        | _ => Blocked
        end
    | ev_drained =>
        match phase h with
        | draining => destructor_drained h
        | _ => Blocked
        end
    end
  end.

Fixpoint run (es : list event) (h : handler) : outcome handler :=
  match es with
  | [] => Done h
  | e :: es' =>
      match step e h with
      | Done h' => run es' h'
      | Fatal => Fatal
      | Blocked => Blocked
      end
  end.

(** ** The client: [metadata_change_request_t] *)

Record metadata_change_request_t := mk_request {
  interest_acquired : bool;
  remote_metadata : metadata_t;
  commit_mailbox_address : address_t;
}.

Inductive exc := resource_lost_exc_t.

(** Where the coroutine that owns the object is. *)
Inductive request_pc :=
| in_constructor (ack_mb : mailbox_id) (done : bool) (watched : peer_id)
    (* suspended in waiter.wait(), line 88 *)
| constructed                                (* no call in progress *)
| in_update (result_mb : mailbox_id) (result_promise : option result_msg_t)
    (watched : peer_id)                      (* suspended in waiter.wait(), line 115 *)
| thrown (e : exc)                           (* the constructor threw: there is no object *)
| destroyed.

Inductive request_obs :=
| robs_send (to : address_t) (m : message)
| robs_return (b : bool)                     (* update() returned b *)
| robs_throw (e : exc).

Record request := mk_client {
  request_manager : peer_id;                 (* the node the request's mailboxes are on *)
  object : metadata_change_request_t;
  pc : request_pc;
  request_disconnected : gset peer_id;       (* connectivity service: peers lost *)
  next_mailbox : mailbox_id;
  request_trace : list request_obs;
}.

Definition request_emit (o : request_obs) (r : request) : request :=
  mk_client (request_manager r) (object r) (pc r) (request_disconnected r)
    (next_mailbox r) (request_trace r ++ [o]).

Definition request_set_pc (p : request_pc) (r : request) : request :=
  mk_client (request_manager r) (object r) p (request_disconnected r)
    (next_mailbox r) (request_trace r).

Definition request_set_object (o : metadata_change_request_t) (r : request) : request :=
  mk_client (request_manager r) o (pc r) (request_disconnected r)
    (next_mailbox r) (request_trace r).

Definition request_set_disconnected (s : gset peer_id) (r : request) : request :=
  mk_client (request_manager r) (object r) (pc r) s
    (next_mailbox r) (request_trace r).

Definition request_new_mailbox (r : request) : request :=
  mk_client (request_manager r) (object r) (pc r) (request_disconnected r)
    (S (next_mailbox r)) (request_trace r).

(** Modelled from the spec: [send(mailbox_manager, to, m)] on the requester's
    node. *)
Definition request_send (to : address_t) (m : message) (r : request) : request :=
  request_emit (robs_send to m) r.

(** Modelled from the spec:
    [disconnect_watcher_t(connectivity_service, peer).is_pulsed()] on the
    requester's node. *)
Definition request_dc_is_pulsed (p : peer_id) (r : request) : bool :=
  bool_decide (p ∈ request_disconnected r).

(** The constructor, lines 75-88: up to [waiter.wait()].  [lost] is what the
    connectivity service of the node has seen so far. *)
Definition request_constructor_begin (me : peer_id) (lost : gset peer_id)
    (request_mailbox : address_t) : request :=
  let r := mk_client me (mk_request true metadata_default nil_address)
             (in_constructor 0 false (get_peer request_mailbox)) lost 1 [] in
  request_send request_mailbox (msg_request (mk_request_msg (mk_address me 0))) r.

(** [void handle_ack(cond_t *done, const ack_msg_t &ack_msg)], lines 125-130 *)
Definition request_handle_ack (ack_msg : ack_msg_t) (r : request) : request :=
  match pc r with
  | in_constructor mb _ watched =>
      request_set_pc (in_constructor mb true watched)
        (request_set_object
           (mk_request (interest_acquired (object r)) (ack_metadata ack_msg)
              (ack_commit_mailbox_address ack_msg)) r)
  | _ => r
  end.

(** The constructor, lines 90-92: after [waiter.wait()] *)
Definition request_constructor_resume (watched : peer_id) (r : request) : request :=
  if request_dc_is_pulsed watched r then
    request_emit (robs_throw resource_lost_exc_t)
      (request_set_pc (thrown resource_lost_exc_t) r)
  else request_set_pc constructed r.

(** [metadata_t get() const] *)
Definition request_get (r : request) : metadata_t := remote_metadata (object r).

(** [bool update(const metadata_t &metadata)], lines 105-115: up to [waiter.wait()] *)
Definition request_update_begin (m : metadata_t) (r : request) : request :=
  let r1 := request_set_object
              (mk_request false (remote_metadata (object r))
                 (commit_mailbox_address (object r))) r in
  let mb := next_mailbox r1 in
  let r2 := request_new_mailbox r1 in
  let r3 := request_send (commit_mailbox_address (object r2))
              (msg_commit (mk_commit_msg true m (mk_address (request_manager r2) mb))) r2 in
  request_set_pc (in_update mb None (get_peer (commit_mailbox_address (object r3)))) r3.

(** Modelled from the spec: [promise_t<result_msg_t>::pulse], the callback of
    the result mailbox, fulfils the promise with the Result. *)
Definition request_promise_pulse (msg : result_msg_t) (r : request) : request :=
  match pc r with
  | in_update mb _ watched => request_set_pc (in_update mb (Some msg) watched) r
  | _ => r
  end.

(** [update], lines 117-121: after [waiter.wait()]; the value returned *)
Definition request_update_result (result_promise : option result_msg_t) : bool :=
  match result_promise with
  | Some result => value result
  | None => false
  end.

Definition request_update_resume (result_promise : option result_msg_t)
    (r : request) : request :=
  request_emit (robs_return (request_update_result result_promise))
    (request_set_pc constructed r).

(** [~metadata_change_request_t()], lines 94-99 *)
Definition request_destructor (r : request) : request :=
  let r1 :=
    if interest_acquired (object r) then
      request_send (commit_mailbox_address (object r))
        (msg_commit (mk_commit_msg false metadata_default nil_address)) r
    else r in
  request_set_pc destroyed r1.

(** What can happen to a request object and to the coroutine that owns it. *)
Inductive request_event :=
| rev_ack (mb : mailbox_id) (msg : ack_msg_t)       (* a message reaches ack_mailbox *)
| rev_result (mb : mailbox_id) (msg : result_msg_t) (* a message reaches result_mailbox *)
| rev_disconnect (p : peer_id)
| rev_resume                                 (* the scheduler resumes the owner *)
| rev_update (m : metadata_t)                (* the owner calls update(m) *)
| rev_get                                    (* the owner calls get() *)
| rev_destroy.                               (* the owner destroys the object *)

Definition request_step (e : request_event) (r : request) : outcome request :=
  match e with
  | rev_ack mb msg =>
      match pc r with
      | in_constructor mb' _ _ =>
          if decide (mb = mb') then Done (request_handle_ack msg r) else Done r
      | _ => Done r                          (* no such mailbox: dropped *)
      end
  | rev_result mb msg =>
      match pc r with
      | in_update mb' _ _ =>
          if decide (mb = mb') then Done (request_promise_pulse msg r) else Done r
      | _ => Done r
      end
  | rev_disconnect p =>
      Done (request_set_disconnected ({[p]} ∪ request_disconnected r) r)
  | rev_resume =>
      match pc r with
      | in_constructor _ done watched =>
          if done || request_dc_is_pulsed watched r
          then Done (request_constructor_resume watched r) else Blocked
      | in_update _ result_promise watched =>
          if bool_decide (is_Some result_promise) || request_dc_is_pulsed watched r
          then Done (request_update_resume result_promise r) else Blocked
      | _ => Blocked
      end
  | rev_update m =>
      match pc r with
      | constructed => Done (request_update_begin m r)
      | _ => Blocked
      end
  | rev_get =>
      match pc r with
      | constructed => Done r
      | _ => Blocked
      end
  | rev_destroy =>
      match pc r with
      | constructed => Done (request_destructor r)
      | _ => Blocked
      end
  end.

Fixpoint request_run (es : list request_event) (r : request) : outcome request :=
  match es with
  | [] => Done r
  | e :: es' =>
      match request_step e r with
      | Done r' => request_run es' r'
      | Fatal => Fatal
      | Blocked => Blocked
      end
  end.

(** ** Reading what happens to a request *)

(** The events that come from outside while the owner is suspended. *)
Definition external (e : request_event) : bool :=
  match e with
  | rev_ack _ _ | rev_result _ _ | rev_disconnect _ => true
  | _ => false
  end.

(** The last Ack delivered to mailbox [mb]. *)
Fixpoint last_ack (mb : mailbox_id) (es : list request_event) : option ack_msg_t :=
  match es with
  | [] => None
  | e :: es' =>
      match last_ack mb es' with
      | Some a => Some a
      | None =>
          match e with
          | rev_ack mb' a => if decide (mb' = mb) then Some a else None
          | _ => None
          end
      end
  end.


(** Does peer [p] disconnect during these events. *)
Fixpoint disconnects (p : peer_id) (es : list request_event) : bool :=
  match es with
  | [] => false
  | rev_disconnect p' :: es' => bool_decide (p' = p) || disconnects p es'
  | _ :: es' => disconnects p es'
  end.

(** Does peer [p] disconnect before an Ack reaches mailbox [mb]. *)
Fixpoint disconnects_before_ack (mb : mailbox_id) (p : peer_id)
    (es : list request_event) : bool :=
  match es with
  | [] => false
  | rev_disconnect p' :: es' =>
      bool_decide (p' = p) || disconnects_before_ack mb p es'
  | rev_ack mb' _ :: es' =>
      if decide (mb' = mb) then false else disconnects_before_ack mb p es'
  | _ :: es' => disconnects_before_ack mb p es'
  end.

(** The Commit messages among the sends of a trace. *)
Fixpoint commits_sent (t : list request_obs) : list commit_msg_t :=
  match t with
  | [] => []
  | robs_send _ (msg_commit m) :: t' => m :: commits_sent t'
  | _ :: t' => commits_sent t'
  end.

(** The arguments of the [update] calls among the events. *)
Fixpoint updates_of (es : list request_event) : list metadata_t :=
  match es with
  | [] => []
  | rev_update m :: es' => m :: updates_of es'
  | _ :: es' => updates_of es'
  end.

(** What a request has sent, given the [update] calls made on it so far. *)
Definition lifetime_inv (us : list metadata_t) (r : request) : Prop :=
  let cs := commits_sent (request_trace r) in
  match pc r with
  | in_constructor _ _ _ | thrown _ =>
      us = [] ∧ cs = [] ∧ interest_acquired (object r) = true
  | constructed | in_update _ _ _ =>
      commit <$> cs = (λ _, true) <$> us ∧ metadata <$> cs = us ∧
      (interest_acquired (object r) = true ↔ us = [])
  | destroyed =>
      (us = [] ∧ cs = [mk_commit_msg false metadata_default nil_address]) ∨
      (us ≠ [] ∧ commit <$> cs = (λ _, true) <$> us ∧ metadata <$> cs = us)
  end.

(** ** Reading the trace *)

(** The arguments of the [join] calls of a trace, in order. *)
Fixpoint joins (t : list obs) : list metadata_t :=
  match t with
  | [] => []
  | obs_join m :: t' => m :: joins t'
  | _ :: t' => joins t'
  end.

(** What happened after coroutine [c] put its flag into the registry. *)
Fixpoint since_insert (c : coro_id) (t : list obs) : list obs :=
  match t with
  | [] => []
  | obs_insert c' :: t' => if decide (c = c') then t' else since_insert c t'
  | _ :: t' => since_insert c t'
  end.

(** Was [update] called in this stretch of the trace: [update] is the only
    caller of [join], and every call of [update] ends in one [join]. *)
Definition update_called (t : list obs) : bool :=
  match joins t with [] => false | _ :: _ => true end.

Fixpoint count_insert (c : coro_id) (t : list obs) : nat :=
  match t with
  | [] => 0
  | obs_insert c' :: t' => (if decide (c = c') then 1 else 0) + count_insert c t'
  | _ :: t' => count_insert c t'
  end.

Fixpoint count_erase (c : coro_id) (t : list obs) : nat :=
  match t with
  | [] => 0
  | obs_erase c' :: t' => (if decide (c = c') then 1 else 0) + count_erase c t'
  | _ :: t' => count_erase c t'
  end.

(** The states a handler can be in. *)
Definition reachable (h : handler) : Prop :=
  ∃ me m es, run es (new_handler me m) = Done h.

(** The flag of a task, set. *)
Definition pulsed_task (t : task) : task :=
  match t with
  | coro_waiting f => coro_waiting (mk_frame (frame_ack_mailbox f) true (commit_done f))
  | _ => t
  end.

(** ** The invariant of the handler *)

(** What the registry and the trace say about coroutine [c], by what the
    coroutine is doing. *)
Definition task_inv (h : handler) (c : coro_id) : Prop :=
  match tasks h !! c with
  | Some (coro_waiting f) =>
      c ∈ coro_invalid_conditions h ∧
      count_insert c (trace h) = 1 ∧ count_erase c (trace h) = 0 ∧
      invalid_condition f = update_called (since_insert c (trace h))
  | Some _ =>
      (c ∉ coro_invalid_conditions h) ∧
      count_insert c (trace h) = 0 ∧ count_erase c (trace h) = 0
  | None =>
      (c ∉ coro_invalid_conditions h) ∧
      count_insert c (trace h) = count_erase c (trace h) ∧
      count_insert c (trace h) ≤ 1
  end.

(** Every Ack in the trace comes right after the registration of the
    coroutine whose commit mailbox it carries. *)
Definition ack_follows_insert (h : handler) : Prop :=
  ∀ i to a, trace h !! i = Some (obs_send to (msg_ack a)) →
    ∃ j c, i = S j ∧ trace h !! j = Some (obs_insert c) ∧
           ack_commit_mailbox_address a = commit_mailbox_of h c.

(** Every registration in the trace is followed at once by the Ack that
    hands out the commit mailbox of that coroutine. *)
Definition insert_precedes_ack (h : handler) : Prop :=
  ∀ j c, trace h !! j = Some (obs_insert c) →
    ∃ to snapshot,
      trace h !! S j =
      Some (obs_send to (msg_ack (mk_ack_msg snapshot (commit_mailbox_of h c)))).

Record inv (h : handler) : Prop := mk_inv {
  inv_task : ∀ c : coro_id, task_inv h c;
  inv_fresh : ∀ c : coro_id, next_coro h ≤ c →
    tasks h !! c = None ∧ count_insert c (trace h) = 0;
  inv_drainer : drainer h = size (tasks h);
  inv_ack : ack_follows_insert h;
  inv_insert : insert_precedes_ack h;
}.

(** A released handler has no task left: the drainer let it go. *)
Definition quiet (h : handler) : Prop := phase h = released → tasks h = ∅.

(** ** Where the messages of the handler come from *)

(** The ack mailbox a session task will answer or has answered. *)
Definition ack_address_of (t : task) : option address_t :=
  match t with
  | coro_spawned ack => Some ack
  | coro_waiting f => Some (frame_ack_mailbox f)
  | send_result_spawned _ _ => None
  end.

(** The Result a [send_result] task will send, and where to. *)
Definition result_of (t : task) : option (bool * address_t) :=
  match t with
  | send_result_spawned result to => Some (result, to)
  | _ => None
  end.

(** A Result [b] for address [to] answers a Commit{true} among the events
    [seen] that named [to] as its result mailbox; if [b] is true, the
    metadata of that Commit has been joined into the store. *)
Definition answers (seen : list event) (h : handler) (b : bool) (to : address_t) : Prop :=
  ∃ c msg, ev_commit c msg ∈ seen ∧ commit msg = true ∧
           result_mailbox msg = to ∧
           (b = true → metadata msg ∈ joins (trace h)).

(** Every session task and every Ack sent belongs to a Request among the
    events [seen]; every [send_result] task and every Result sent answers a
    Commit{true} among them; nothing else is sent. *)
Definition provenance (seen : list event) (h : handler) : Prop :=
  (∀ c t a, tasks h !! c = Some t → ack_address_of t = Some a →
     ev_request (mk_request_msg a) ∈ seen) ∧
  (∀ c t b to, tasks h !! c = Some t → result_of t = Some (b, to) →
     answers seen h b to) ∧
  (∀ to msg, obs_send to msg ∈ trace h →
     match msg with
     | msg_ack _ => ev_request (mk_request_msg to) ∈ seen
     | msg_result r => answers seen h (value r) to
     | _ => False
     end).

(** ** What a request sends and returns *)

(** Is the object there: the constructor has returned and has not thrown. *)
Definition is_constructed (r : request) : Prop :=
  match pc r with
  | in_constructor _ _ _ | thrown _ => False
  | _ => True
  end.

(** What a Commit sent by a request on node [me] looks like. *)
Definition commit_well_formed (me : peer_id) (r : request) (to : address_t)
    (msg : message) : Prop :=
  ∃ c, msg = msg_commit c ∧ to = commit_mailbox_address (object r) ∧
       if commit c then get_peer (result_mailbox c) = me
       else c = mk_commit_msg false metadata_default nil_address.

(** The trace of a request on node [me] made for [target] starts with its
    Request; until the object is constructed nothing else is sent, and after
    that only Commits to the commit address of the object. *)
Definition sends_inv (me : peer_id) (target : address_t) (r : request) : Prop :=
  request_manager r = me ∧
  ∃ rest,
    request_trace r =
      robs_send target (msg_request (mk_request_msg (mk_address me 0))) :: rest ∧
    ∀ to msg, robs_send to msg ∈ rest →
      is_constructed r ∧ commit_well_formed me r to msg.

(** A fulfilled promise holds a Result that was delivered, and [update] has
    returned true only after a Result{true} was delivered. *)
Definition returns_inv (seen : list request_event) (r : request) : Prop :=
  (∀ mb x w, pc r = in_update mb (Some x) w → rev_result mb x ∈ seen) ∧
  (robs_return true ∈ request_trace r →
   ∃ mb, rev_result mb (mk_result_msg true) ∈ seen).

(** ** Who writes the store *)

(** A Commit is accepted when it says commit=true and reaches the commit
    mailbox of a waiting session whose flag is not pulsed. *)
Definition accepted (h : handler) (c : coro_id) (msg : commit_msg_t) : bool :=
  match tasks h !! c with
  | Some (coro_waiting f) => commit msg && negb (invalid_condition f)
  | _ => false
  end.

(** What an event is to write to the store: the argument of the owner's
    [update], the metadata of an accepted Commit, nothing otherwise. *)
Definition written (e : event) (h : handler) : list metadata_t :=
  match e with
  | ev_update m => [m]
  | ev_commit c msg => if accepted h c msg then [metadata msg] else []
  | _ => []
  end.

Fixpoint writes (es : list event) (h : handler) : list metadata_t :=
  match es with
  | [] => []
  | e :: es' =>
      written e h ++
      match step e h with
      | Done h' => writes es' h'
      | _ => []
      end
  end.

(** ** Winding a handler down *)

(** The events that need no message from a requester and no call of
    [update]: the scheduler, the loss of a peer, the destructor. *)
Definition retiring (e : event) : Prop :=
  match e with
  | ev_schedule _ | ev_disconnect _ | ev_destroy | ev_drained => True
  | _ => False
  end.

(** ** Runs that go through *)

(** The state after a run, for runs that go through. *)
Definition state_after (es : list event) (h : handler) : handler :=
  match run es h with
  | Done h' => h'
  | _ => h
  end.

Definition request_after (es : list request_event) (r : request) : request :=
  match request_run es r with
  | Done r' => r'
  | _ => r
  end.

End protocol.

Arguments handler : clear implicits.
Arguments request : clear implicits.
Arguments event : clear implicits.
Arguments request_event : clear implicits.
Arguments message : clear implicits.
Arguments obs : clear implicits.
Arguments request_obs : clear implicits.
Arguments commit_msg_t : clear implicits.
Arguments ack_msg_t : clear implicits.
Arguments metadata_change_request_t : clear implicits.

(** * A concrete instance

    Metadata is a version number and [join] is the maximum. *)

#[global] Instance version_metadata : Metadata nat :=
  {| semilattice_join := Nat.max; metadata_default := 0 |}.

(** A requester on node 7 and the handler on node 1, whose store is at
    version 1. *)
Definition requester_ack : address_t := mk_address 7 0.
Definition requester_result : address_t := mk_address 7 1.
Definition handler_request : address_t := mk_address 1 0.

Definition session_opened : list (event nat) :=
  [ev_request (mk_request_msg requester_ack); ev_schedule 0].

Definition h_waiting : handler nat := state_after session_opened (new_handler 1 1).

Definition h_invalidated : handler nat :=
  state_after (session_opened ++ [ev_update 2]) (new_handler 1 1).

Definition commit_3 : commit_msg_t nat := mk_commit_msg true 3 requester_result.

Definition abandon : commit_msg_t nat := mk_commit_msg false 0 nil_address.

(** A second requester, on node 8, with a session of its own. *)
Definition two_sessions : handler nat :=
  state_after
    (session_opened ++ [ev_request (mk_request_msg (mk_address 8 0)); ev_schedule 1])
    (new_handler 1 1).

(** The Ack of session 0 of the handler: the snapshot at version 1 and the
    session's commit mailbox. *)
Definition ack_1 : ack_msg_t nat := mk_ack_msg 1 (mk_address 1 1).

Definition r_waiting : request nat :=
  request_constructor_begin 7 ∅ handler_request.

Definition r_constructed : request nat :=
  request_after [rev_ack 0 ack_1; rev_resume] r_waiting.

(** A request that is dropped without a call of [update]. *)
Definition abandoned_life : list (request_event nat) :=
  [rev_ack 0 ack_1; rev_resume; rev_get; rev_destroy].

(** A request on which [update] is called twice. *)
Definition two_updates : list (request_event nat) :=
  [rev_ack 0 ack_1; rev_resume;
   rev_update 3; rev_result 1 (mk_result_msg true); rev_resume;
   rev_update 4; rev_disconnect 1; rev_resume;
   rev_destroy].

(** The run of the scenario of the specification: a rejected commit of the
    first requester, then an accepted commit of the second. *)
Definition scenario_run : list (event nat) :=
  [ev_request (mk_request_msg requester_ack); ev_schedule 0;
   ev_update 2;
   ev_commit 0 commit_3; ev_schedule 1; ev_schedule 0;
   ev_request (mk_request_msg (mk_address 8 0)); ev_schedule 2;
   ev_commit 2 (mk_commit_msg true 4 (mk_address 8 1));
   ev_schedule 3; ev_schedule 2].

(** A handler that has received a Request whose session has not started. *)
Definition h_spawned : handler nat :=
  state_after [ev_request (mk_request_msg requester_ack)] (new_handler 1 1).

(** A request whose [update] is answered by Result{true}. *)
Definition committed_life : list (request_event nat) :=
  [rev_ack 0 ack_1; rev_resume;
   rev_update 3; rev_result 1 (mk_result_msg true); rev_resume].

(** * Properties *)

Section properties.
Context {metadata_t : Type} `{!Metadata metadata_t}.
Implicit Types (h : handler metadata_t) (r : request metadata_t).
Implicit Types (c : coro_id) (t : list (obs metadata_t)).

(** ** Reading the trace: the functions on an extended trace *)

Lemma joins_app t1 t2 : joins (t1 ++ t2) = joins t1 ++ joins t2.
Proof.
  induction t1 as [|o t1 IH]; [done|].
  destruct o; simpl; by rewrite IH.
Qed.

Lemma count_insert_app c t1 t2 :
  count_insert c (t1 ++ t2) = count_insert c t1 + count_insert c t2.
Proof.
  induction t1 as [|o t1 IH]; [done|].
  destruct o; simpl; rewrite IH; lia.
Qed.

Lemma count_erase_app c t1 t2 :
  count_erase c (t1 ++ t2) = count_erase c t1 + count_erase c t2.
Proof.
  induction t1 as [|o t1 IH]; [done|].
  destruct o; simpl; rewrite IH; lia.
Qed.

Lemma since_insert_app c t1 t2 :
  0 < count_insert c t1 → since_insert c (t1 ++ t2) = since_insert c t1 ++ t2.
Proof.
  induction t1 as [|o t1 IH]; simpl; [lia|].
  destruct o; simpl; try done.
  case_decide; [done|]. intros. apply IH. lia.
Qed.

Lemma since_insert_fresh c t t2 :
  count_insert c t = 0 → since_insert c (t ++ obs_insert c :: t2) = t2.
Proof.
  induction t as [|o t IH]; simpl.
  - intros _. by rewrite decide_True.
  - destruct o; simpl; try done.
    case_decide; [lia|]. intros. apply IH. lia.
Qed.

Lemma update_called_app t1 t2 :
  update_called (t1 ++ t2) = update_called t1 || update_called t2.
Proof.
  unfold update_called. rewrite joins_app.
  by destruct (joins t1), (joins t2).
Qed.

(** ** What [update] does to each part of the state *)

Lemma pulse_fields c h :
  metadata_view (pulse_if_not_already_pulsed c h) = metadata_view h ∧
  coro_invalid_conditions (pulse_if_not_already_pulsed c h) = coro_invalid_conditions h ∧
  drainer (pulse_if_not_already_pulsed c h) = drainer h ∧
  next_coro (pulse_if_not_already_pulsed c h) = next_coro h ∧
  disconnected (pulse_if_not_already_pulsed c h) = disconnected h ∧
  phase (pulse_if_not_already_pulsed c h) = phase h ∧
  mailbox_manager (pulse_if_not_already_pulsed c h) = mailbox_manager h ∧
  trace (pulse_if_not_already_pulsed c h) = trace h.
Proof.
  unfold pulse_if_not_already_pulsed.
  destruct (tasks h !! c) as [[?|f|??]|]; try done.
  by destruct (invalid_condition f).
Qed.

Lemma pulse_tasks c h c' :
  tasks (pulse_if_not_already_pulsed c h) !! c' =
  if decide (c = c') then pulsed_task <$> tasks h !! c' else tasks h !! c'.
Proof.
  unfold pulse_if_not_already_pulsed.
  case_decide as Hc.
  - subst c'. destruct (tasks h !! c) as [[?|f|??]|] eqn:E; rewrite ?E; try done.
    destruct (invalid_condition f) eqn:Ef; simpl.
    + rewrite E. simpl. destruct f; simpl in *; by subst.
    + by rewrite lookup_insert_eq.
  - destruct (tasks h !! c) as [[?|f|??]|] eqn:E; try done.
    destruct (invalid_condition f); [done|]. simpl. by rewrite lookup_insert_ne.
Qed.

Lemma pulse_all_fields (l : list coro_id) h :
  let h' := foldr pulse_if_not_already_pulsed h l in
  metadata_view h' = metadata_view h ∧
  coro_invalid_conditions h' = coro_invalid_conditions h ∧
  drainer h' = drainer h ∧
  next_coro h' = next_coro h ∧
  disconnected h' = disconnected h ∧
  phase h' = phase h ∧
  mailbox_manager h' = mailbox_manager h ∧
  trace h' = trace h.
Proof.
  induction l as [|c l IH]; simpl; [done|].
  simpl in IH. destruct IH as (?&?&?&?&?&?&?&?).
  destruct (pulse_fields c (foldr pulse_if_not_already_pulsed h l))
    as (?&?&?&?&?&?&?&?).
  repeat split; congruence.
Qed.

Lemma pulse_all_tasks (l : list coro_id) h c :
  tasks (foldr pulse_if_not_already_pulsed h l) !! c =
  if decide (c ∈ l) then pulsed_task <$> tasks h !! c else tasks h !! c.
Proof.
  induction l as [|c' l IH]; cbn [foldr].
  - case_decide as Hin; [by apply elem_of_nil in Hin|done].
  - rewrite pulse_tasks, IH.
    destruct (decide (c' = c)) as [->|Hne].
    + destruct (decide (c ∈ l)) as [Hl|Hl], (decide (c ∈ c :: l)) as [Hc|Hc];
        try done; try (by destruct Hc; left).
      destruct (tasks h !! c) as [[?|f|??]|]; done.
    + destruct (decide (c ∈ l)) as [Hl|Hl], (decide (c ∈ c' :: l)) as [Hc|Hc];
        try done.
      * by destruct Hc; right.
      * apply elem_of_cons in Hc as [?|?]; [congruence|done].
Qed.

Lemma update_tasks m h c :
  tasks (update m h) !! c =
  if decide (c ∈ coro_invalid_conditions h) then pulsed_task <$> tasks h !! c
  else tasks h !! c.
Proof.
  unfold update. simpl. rewrite pulse_all_tasks.
  destruct (decide (c ∈ elements (coro_invalid_conditions h))) as [Hin|Hin];
    rewrite elem_of_elements in Hin.
  - by rewrite decide_True.
  - by rewrite decide_False.
Qed.

Lemma update_fields m h :
  metadata_view (update m h) = semilattice_join (metadata_view h) m ∧
  coro_invalid_conditions (update m h) = coro_invalid_conditions h ∧
  drainer (update m h) = drainer h ∧
  next_coro (update m h) = next_coro h ∧
  disconnected (update m h) = disconnected h ∧
  phase (update m h) = phase h ∧
  mailbox_manager (update m h) = mailbox_manager h ∧
  trace (update m h) = trace h ++ [obs_join m].
Proof.
  unfold update. simpl.
  destruct (pulse_all_fields (elements (coro_invalid_conditions h)) h)
    as (?&?&?&?&?&?&?&?).
  repeat split; congruence.
Qed.

Lemma update_dom m h : dom (tasks (update m h)) = dom (tasks h).
Proof.
  apply set_eq. intros c. rewrite !elem_of_dom, update_tasks.
  case_decide; [|done]. by rewrite fmap_is_Some.
Qed.

(** ** Membership in the registry after [insert] and [erase] *)

Lemma registry_insert_eq c (X : gset coro_id) : c ∈ {[c]} ∪ X.
Proof. apply elem_of_union_l, elem_of_singleton. done. Qed.

Lemma registry_insert_ne c c' (X : gset coro_id) :
  c' ≠ c → c' ∈ {[c]} ∪ X ↔ c' ∈ X.
Proof. intros Hne. rewrite elem_of_union, elem_of_singleton. tauto. Qed.

Lemma registry_erase_eq c (X : gset coro_id) : c ∉ X ∖ {[c]}.
Proof. rewrite elem_of_difference, elem_of_singleton. tauto. Qed.

Lemma registry_erase_ne c c' (X : gset coro_id) :
  c' ≠ c → c' ∈ X ∖ {[c]} ↔ c' ∈ X.
Proof. intros Hne. rewrite elem_of_difference, elem_of_singleton. tauto. Qed.

(** ** The invariant holds in every reachable state *)

Lemma inv_new me (m : metadata_t) : inv (new_handler me m).
Proof.
  split.
  - intros c. unfold task_inv. simpl. rewrite lookup_empty.
    split_and!; [apply not_elem_of_empty|done|lia].
  - intros c _. simpl. by rewrite lookup_empty.
  - simpl. by rewrite map_size_empty.
  - intros i to a. simpl. by rewrite lookup_nil.
  - intros j c. simpl. by rewrite lookup_nil.
Qed.

Lemma inv_waiting h c f :
  inv h → tasks h !! c = Some (coro_waiting f) →
  c ∈ coro_invalid_conditions h ∧ c < next_coro h ∧
  count_insert c (trace h) = 1 ∧ count_erase c (trace h) = 0 ∧
  invalid_condition f = update_called (since_insert c (trace h)).
Proof.
  intros Hinv Hc. pose proof (inv_task h Hinv c) as Ht.
  unfold task_inv in Ht. rewrite Hc in Ht. destruct Ht as (?&?&?&?).
  repeat split; try done.
  destruct (decide (c < next_coro h)) as [|Hge]; [done|].
  destruct (inv_fresh h Hinv c) as [Hn _]; [lia|congruence].
Qed.

Lemma inv_live h c (x : task) : inv h → tasks h !! c = Some x → c < next_coro h.
Proof.
  intros Hinv Hc.
  destruct (decide (c < next_coro h)) as [|Hge]; [done|].
  destruct (inv_fresh h Hinv c) as [Hn _]; [lia|congruence].
Qed.

Lemma inv_registered h c :
  inv h → c ∈ coro_invalid_conditions h → ∃ f, tasks h !! c = Some (coro_waiting f).
Proof.
  intros Hinv Hc. pose proof (inv_task h Hinv c) as Ht. unfold task_inv in Ht.
  destruct (tasks h !! c) as [[?|f|??]|]; [| by eexists | |]; by destruct Ht.
Qed.

(** An observation that is no Ack keeps [ack_follows_insert]. *)
Lemma ack_follows_snoc h h' o :
  trace h' = trace h ++ [o] → mailbox_manager h' = mailbox_manager h →
  (∀ to a, o ≠ obs_send to (msg_ack a)) →
  ack_follows_insert h → ack_follows_insert h'.
Proof.
  intros Ht Hm Ho Hack i to a. rewrite Ht. unfold commit_mailbox_of. rewrite Hm.
  intros [[Hlt Hi]|[_ Hi]]%lookup_snoc_Some; [|by destruct (Ho to a)].
  destruct (Hack i to a Hi) as (j & c & -> & Hj & Ha).
  exists j, c. split_and!; [done| |done].
  rewrite lookup_app_l; [done|]. by apply lookup_lt_Some in Hj.
Qed.

Lemma insert_precedes_snoc h h' o :
  trace h' = trace h ++ [o] → mailbox_manager h' = mailbox_manager h →
  (∀ c, o ≠ obs_insert c) →
  insert_precedes_ack h → insert_precedes_ack h'.
Proof.
  intros Ht Hm Ho Hins j c. rewrite Ht. unfold commit_mailbox_of. rewrite Hm.
  intros [[Hlt Hj]|[_ Hj]]%lookup_snoc_Some; [|by destruct (Ho c)].
  destruct (Hins j c Hj) as (to & snapshot & HS).
  exists to, snapshot. rewrite lookup_app_l; [done|]. by apply lookup_lt_Some in HS.
Qed.

Lemma inv_update m h : inv h → inv (update m h).
Proof.
  intros Hinv. destruct (update_fields m h) as (Hv&Hr&Hd&Hn&_&_&Hm&Ht).
  split.
  - intros c. pose proof (inv_task h Hinv c) as Hc. unfold task_inv in *.
    rewrite update_tasks, Hr, Ht, count_insert_app, count_erase_app. simpl.
    rewrite !Nat.add_0_r.
    destruct (tasks h !! c) as [[?|f|??]|] eqn:E.
    + destruct Hc as (?&?&?). by rewrite decide_False.
    + destruct Hc as (Hin&Hi&?&?). rewrite decide_True by done. simpl.
      split_and!; try done.
      rewrite since_insert_app by lia. rewrite update_called_app. simpl.
      by rewrite orb_true_r.
    + destruct Hc as (?&?&?). by rewrite decide_False.
    + by case_decide.
  - intros c Hc. rewrite Hn in Hc. destruct (inv_fresh h Hinv c Hc) as [E Hi].
    rewrite update_tasks, E, Ht, count_insert_app. simpl.
    split; [by case_decide|lia].
  - rewrite Hd, (inv_drainer h Hinv).
    rewrite <-!size_dom. by rewrite update_dom.
  - eapply ack_follows_snoc; [done..|done|apply (inv_ack h Hinv)].
  - eapply insert_precedes_snoc; [done..|done|apply (inv_insert h Hinv)].
Qed.

Lemma inv_spawn (x : task) h :
  (∀ f, x ≠ coro_waiting f) → inv h → inv (spawn_sometime x h).
Proof.
  intros Hx Hinv.
  destruct (inv_fresh h Hinv (next_coro h)) as [Hnone Hins]; [lia|].
  pose proof (inv_task h Hinv (next_coro h)) as Hnew.
  unfold task_inv in Hnew. rewrite Hnone in Hnew. destruct Hnew as (Hnr&Heq&_).
  split.
  - intros c. unfold task_inv. simpl.
    destruct (decide (c = next_coro h)) as [->|Hne].
    + rewrite lookup_insert_eq.
      destruct x as [?|f|??]; [|by destruct (Hx f)|]; split_and!; try done; lia.
    + rewrite lookup_insert_ne by done. apply (inv_task h Hinv c).
  - intros c Hc. simpl in *. rewrite lookup_insert_ne by lia.
    apply (inv_fresh h Hinv). lia.
  - simpl. rewrite map_size_insert_None by done.
    by rewrite (inv_drainer h Hinv).
  - apply (inv_ack h Hinv).
  - apply (inv_insert h Hinv).
Qed.

Lemma inv_pulse_done c h : inv h → inv (pulse_done c h).
Proof.
  intros Hinv. unfold pulse_done.
  destruct (tasks h !! c) as [[?|f|??]|] eqn:E; try done.
  split.
  - intros c'. unfold task_inv. simpl.
    destruct (decide (c' = c)) as [->|Hne].
    + rewrite lookup_insert_eq. simpl.
      by destruct (inv_waiting h c f Hinv E) as (?&?&?&?&?).
    + rewrite lookup_insert_ne by done. apply (inv_task h Hinv c').
  - intros c' Hc'. simpl in *.
    pose proof (inv_live h c _ Hinv E).
    rewrite lookup_insert_ne by lia. by apply (inv_fresh h Hinv).
  - simpl. rewrite map_size_insert_Some by (by rewrite E).
    apply (inv_drainer h Hinv).
  - apply (inv_ack h Hinv).
  - apply (inv_insert h Hinv).
Qed.

Lemma inv_handle_commit c msg h : inv h → inv (handle_commit c msg h).
Proof.
  intros Hinv. unfold handle_commit. apply inv_pulse_done.
  destruct (commit msg); [|done].
  apply inv_spawn; [done|].
  destruct (negb (is_pulsed c h)); [by apply inv_update|done].
Qed.

Lemma inv_begin c ack h :
  tasks h !! c = Some (coro_spawned ack) → inv h →
  inv (remote_change_request_coro_begin c ack h).
Proof.
  intros E Hinv.
  pose proof (inv_task h Hinv c) as Hc. unfold task_inv in Hc.
  rewrite E in Hc. destruct Hc as (Hnr&Hins&Her).
  split.
  - intros c'. unfold task_inv. simpl. rewrite <-app_assoc. simpl.
    rewrite !count_insert_app, !count_erase_app. simpl.
    destruct (decide (c' = c)) as [->|Hne].
    + rewrite lookup_insert_eq. simpl.
      split_and!; [apply registry_insert_eq|lia|lia|].
      by rewrite since_insert_fresh.
    + rewrite lookup_insert_ne by done.
      pose proof (inv_task h Hinv c') as Hc'. unfold task_inv in Hc'.
      rewrite !Nat.add_0_r.
      destruct (tasks h !! c') as [[?|f|??]|] eqn:E'.
      * destruct Hc' as (?&?&?). split_and!; [by rewrite registry_insert_ne|done..].
      * destruct Hc' as (?&?&?&?). split_and!; [by rewrite registry_insert_ne|done..|].
        rewrite since_insert_app by lia. rewrite update_called_app.
        simpl. by rewrite orb_false_r.
      * destruct Hc' as (?&?&?). split_and!; [by rewrite registry_insert_ne|done..].
      * destruct Hc' as (?&?&?). split_and!; [by rewrite registry_insert_ne|done..].
  - intros c' Hc'. simpl in *.
    pose proof (inv_live h c _ Hinv E).
    rewrite lookup_insert_ne by lia.
    destruct (inv_fresh h Hinv c' Hc') as [? ?]. split; [done|].
    rewrite !count_insert_app. simpl. rewrite decide_False by lia. lia.
  - simpl. rewrite map_size_insert_Some by (by rewrite E).
    apply (inv_drainer h Hinv).
  - intros i to a. simpl. rewrite <-app_assoc. simpl.
    intros [Hi|[Hge Hi]]%lookup_app_Some.
    + destruct (inv_ack h Hinv i to a Hi) as (j & c' & -> & Hj & Ha).
      exists j, c'. split_and!; [done| |done].
      rewrite lookup_app_l; [done|]. by apply lookup_lt_Some in Hj.
    + destruct (i - length (trace h)) as [|[|n]] eqn:Ei; simpl in Hi; try done.
      injection Hi as <- <-.
      exists (length (trace h)), c. split_and!; [lia| |done].
      rewrite lookup_app_r by lia. by rewrite Nat.sub_diag.
  - intros j c'. simpl. rewrite <-app_assoc. simpl.
    intros [Hj|[Hge Hj]]%lookup_app_Some.
    + destruct (inv_insert h Hinv j c' Hj) as (to & snapshot & HS).
      exists to, snapshot. rewrite lookup_app_l; [done|].
      by apply lookup_lt_Some in HS.
    + destruct (j - length (trace h)) as [|[|n]] eqn:Ej; simpl in Hj; try done.
      injection Hj as <-. exists ack, (metadata_view h).
      rewrite lookup_app_r by lia.
      by replace (S j - length (trace h)) with 1 by lia.
Qed.

Lemma inv_finish_erase c f h :
  tasks h !! c = Some (coro_waiting f) → inv h →
  inv (finish c (emit (obs_erase c)
                   (set_registry (coro_invalid_conditions h ∖ {[c]}) h))).
Proof.
  intros E Hinv. destruct (inv_waiting h c f Hinv E) as (Hin&Hlt&Hins&Her&_).
  split.
  - intros c'. unfold task_inv. simpl.
    rewrite !count_insert_app, !count_erase_app. simpl. rewrite !Nat.add_0_r.
    destruct (decide (c' = c)) as [->|Hne].
    + rewrite lookup_delete_eq.
      split_and!; [apply registry_erase_eq|lia|lia].
    + rewrite lookup_delete_ne by done.
      pose proof (inv_task h Hinv c') as Hc'. unfold task_inv in Hc'.
      rewrite !Nat.add_0_r.
      destruct (tasks h !! c') as [[?|f'|??]|] eqn:E'.
      * destruct Hc' as (?&?&?). split_and!; [by rewrite registry_erase_ne|done..].
      * destruct Hc' as (?&?&?&?). split_and!; [by rewrite registry_erase_ne|done..|].
        rewrite since_insert_app by lia. rewrite update_called_app.
        simpl. by rewrite orb_false_r.
      * destruct Hc' as (?&?&?). split_and!; [by rewrite registry_erase_ne|done..].
      * destruct Hc' as (?&?&?). split_and!; [by rewrite registry_erase_ne|done..].
  - intros c' Hc'. simpl in *. rewrite lookup_delete_ne by lia.
    destruct (inv_fresh h Hinv c' Hc') as [? ?]. split; [done|].
    rewrite count_insert_app. simpl. lia.
  - simpl. rewrite map_size_delete_Some by (by rewrite E).
    by rewrite (inv_drainer h Hinv).
  - eapply (ack_follows_snoc h _ (obs_erase c)); [done|done|done|].
    apply (inv_ack h Hinv).
  - eapply (insert_precedes_snoc h _ (obs_erase c)); [done|done|done|].
    apply (inv_insert h Hinv).
Qed.

Lemma inv_send_result c result to h :
  tasks h !! c = Some (send_result_spawned result to) → inv h →
  inv (send_result c result to h).
Proof.
  intros E Hinv.
  pose proof (inv_task h Hinv c) as Hc. unfold task_inv in Hc.
  rewrite E in Hc. destruct Hc as (Hnr&Hins&Her).
  split.
  - intros c'. unfold task_inv. simpl.
    rewrite !count_insert_app, !count_erase_app. simpl. rewrite !Nat.add_0_r.
    destruct (decide (c' = c)) as [->|Hne].
    + rewrite lookup_delete_eq. split_and!; [done|lia|lia].
    + rewrite lookup_delete_ne by done.
      pose proof (inv_task h Hinv c') as Hc'. unfold task_inv in Hc'.
      destruct (tasks h !! c') as [[?|f'|??]|] eqn:E'; try done.
      destruct Hc' as (?&?&?&?). split_and!; try done.
      rewrite since_insert_app by lia. rewrite update_called_app.
      simpl. by rewrite orb_false_r.
  - intros c' Hc'. simpl in *.
    pose proof (inv_live h c _ Hinv E).
    rewrite lookup_delete_ne by lia.
    destruct (inv_fresh h Hinv c' Hc') as [? ?]. split; [done|].
    rewrite count_insert_app. simpl. lia.
  - simpl. rewrite map_size_delete_Some by (by rewrite E).
    by rewrite (inv_drainer h Hinv).
  - eapply (ack_follows_snoc h _ (obs_send to _)); [done|done|done|].
    apply (inv_ack h Hinv).
  - eapply (insert_precedes_snoc h _ (obs_send to _)); [done|done|done|].
    apply (inv_insert h Hinv).
Qed.

(** The invariant only reads the tasks, the registry, the drainer, the
    counter, the node and the trace. *)
Lemma inv_ext h h' :
  tasks h' = tasks h → coro_invalid_conditions h' = coro_invalid_conditions h →
  drainer h' = drainer h → next_coro h' = next_coro h →
  mailbox_manager h' = mailbox_manager h → trace h' = trace h →
  inv h → inv h'.
Proof.
  intros Ht Hr Hd Hn Hm Htr Hinv. split.
  - intros c. unfold task_inv. rewrite Ht, Hr, Htr. apply (inv_task h Hinv c).
  - intros c. rewrite Ht, Hn, Htr. apply (inv_fresh h Hinv c).
  - rewrite Hd, Ht. apply (inv_drainer h Hinv).
  - intros i to a. unfold commit_mailbox_of. rewrite Htr, Hm.
    apply (inv_ack h Hinv).
  - intros j c. unfold commit_mailbox_of. rewrite Htr, Hm.
    apply (inv_insert h Hinv).
Qed.

Lemma inv_schedule c h h' : inv h → schedule c h = Done h' → inv h'.
Proof.
  intros Hinv. unfold schedule.
  destruct (tasks h !! c) as [[ack|f|result to]|] eqn:E; [| | |done].
  - intros [= <-]. by apply inv_begin.
  - destruct (wait_any f h); [|done].
    unfold remote_change_request_coro_resume.
    destruct (commit_done f || _); [|done].
    intros [= <-]. by eapply inv_finish_erase.
  - intros [= <-]. by apply inv_send_result.
Qed.

Lemma inv_step e h h' : inv h → step e h = Done h' → inv h'.
Proof.
  intros Hinv. unfold step.
  assert (∀ p, inv (set_phase p h)) as Hphase by (intros; by apply (inv_ext h)).
  destruct e as [msg|c msg|c|p|m| |].
  - destruct (phase h); [| |done]; intros [= <-]; by apply inv_spawn.
  - destruct (phase h); [| |done];
      (destruct (tasks h !! c) as [[?|f|??]|]; intros [= <-];
       [done|by apply inv_handle_commit|done|done]).
  - destruct (phase h); [| |done]; by apply inv_schedule.
  - destruct (phase h); [| |done]; intros [= <-]; by apply (inv_ext h).
  - destruct (phase h); [| |done]; intros [= <-]; by apply inv_update.
  - destruct (phase h); [|done|done]. unfold destructor_body.
    case_decide; [|done]. intros [= <-]. apply Hphase.
  - destruct (phase h); [done| |done]. unfold destructor_drained.
    destruct (drainer h); [|done]. intros [= <-]. apply Hphase.
Qed.

Lemma inv_run es h h' : inv h → run es h = Done h' → inv h'.
Proof.
  revert h. induction es as [|e es IH]; intros h Hinv; simpl.
  - by intros [= <-].
  - destruct (step e h) as [h1| |] eqn:E; [|done|done].
    intros Hrun. eapply IH; [|done]. by eapply inv_step.
Qed.

Lemma reachable_inv h : reachable h → inv h.
Proof. intros (me & m & es & Hrun). eapply inv_run; [apply inv_new|done]. Qed.

Lemma run_app es1 es2 h :
  run (es1 ++ es2) h =
  match run es1 h with Done h1 => run es2 h1 | Fatal => Fatal | Blocked => Blocked end.
Proof.
  revert h. induction es1 as [|e es1 IH]; intros h; simpl; [done|].
  destruct (step e h); [apply IH|done|done].
Qed.

Lemma reachable_step e h h' : reachable h → step e h = Done h' → reachable h'.
Proof.
  intros (me & m & es & Hrun) Hstep. exists me, m, (es ++ [e]).
  rewrite run_app, Hrun. simpl. by rewrite Hstep.
Qed.

Lemma reachable_run es h h' : reachable h → run es h = Done h' → reachable h'.
Proof.
  intros (me & m & es0 & Hrun) Hes. exists me, m, (es0 ++ es).
  by rewrite run_app, Hrun.
Qed.


Lemma handle_commit_phase c msg h : phase (handle_commit c msg h) = phase h.
Proof.
  unfold handle_commit, pulse_done.
  set (h1 := if commit msg then _ else _).
  assert (phase h1 = phase h) as <-.
  { unfold h1. destruct (commit msg); [|done]. simpl.
    destruct (negb (is_pulsed c h)); [|done].
    by destruct (update_fields (metadata msg) h) as (_&_&_&_&_&->&_). }
  by destruct (tasks h1 !! c) as [[?|?|??]|].
Qed.

(** Only the destructor moves the handler through its life. *)
Lemma step_phase e h h' :
  step e h = Done h' →
  phase h' = phase h ∨ phase h' = draining ∨ (phase h' = released ∧ drainer h = 0).
Proof.
  unfold step.
  destruct e as [msg|c msg|c|p|m| |].
  - destruct (phase h) eqn:Hp; [| |done]; intros [= <-]; left; simpl; congruence.
  - destruct (phase h) eqn:Hp; [| |done];
      (destruct (tasks h !! c) as [[?|f|??]|]; intros [= <-]; left;
       rewrite ?handle_commit_phase; congruence).
  - unfold schedule, remote_change_request_coro_resume.
    destruct (phase h) eqn:Hp; [| |done];
      (destruct (tasks h !! c) as [[ack|f|result to]|]; [| | |done];
       [|destruct (wait_any f h); [|done]; destruct (commit_done f || _); [|done]|];
       intros [= <-]; left; simpl; congruence).
  - destruct (phase h) eqn:Hp; [| |done]; intros [= <-]; left; simpl; congruence.
  - destruct (phase h) eqn:Hp; [| |done]; intros [= <-]; left;
      destruct (update_fields m h) as (_&_&_&_&_&Hph&_); congruence.
  - destruct (phase h) eqn:Hp; [|done|done]. unfold destructor_body.
    case_decide; [|done]. intros [= <-]. by right; left.
  - destruct (phase h) eqn:Hp; [done| |done]. unfold destructor_drained.
    destruct (drainer h); [|done]. intros [= <-]. by right; right.
Qed.

Lemma quiet_step e h h' : inv h → quiet h → step e h = Done h' → quiet h'.
Proof.
  intros Hinv Hq Hstep Hrel.
  assert (phase h ≠ released) as Hp.
  { intros Hp. unfold step in Hstep. by rewrite Hp in Hstep. }
  destruct (step_phase e h h' Hstep) as [?|[?|[_ Hd]]]; [congruence..|].
  assert (tasks h = ∅) as Hempty.
  { apply map_size_empty_inv. by rewrite <-(inv_drainer h Hinv). }
  assert (∀ c, schedule c h = Blocked) as Hsched.
  { intros c. unfold schedule. by rewrite Hempty, lookup_empty. }
  unfold step in Hstep.
  destruct e as [msg|c msg|c|p|m| |].
  - destruct (phase h) eqn:E; [| |done]; injection Hstep as <-;
      simpl in Hrel; congruence.
  - rewrite Hempty, lookup_empty in Hstep.
    destruct (phase h) eqn:E; [| |done]; injection Hstep as <-; congruence.
  - rewrite Hsched in Hstep. by destruct (phase h).
  - destruct (phase h) eqn:E; [| |done]; injection Hstep as <-;
      simpl in Hrel; congruence.
  - destruct (phase h) eqn:E; [| |done]; injection Hstep as <-;
      destruct (update_fields m h) as (_&_&_&_&_&Hph&_); congruence.
  - destruct (phase h) eqn:E; [|done|done]. unfold destructor_body in Hstep.
    case_decide; [|done]. injection Hstep as <-. simpl in Hrel. congruence.
  - destruct (phase h) eqn:E; [done| |done]. unfold destructor_drained in Hstep.
    destruct (drainer h); [|done]. by injection Hstep as <-.
Qed.

Lemma reachable_quiet h : reachable h → quiet h.
Proof.
  intros (me & m & es & Hrun).
  assert (∀ es h0, inv h0 → quiet h0 → run es h0 = Done h → quiet h) as Hgen.
  { clear. intros es. induction es as [|e es IH]; intros h0 Hinv Hq; simpl.
    - by intros [= <-].
    - destruct (step e h0) as [h1| |] eqn:E; [|done|done].
      apply IH; [by eapply inv_step|by eapply quiet_step]. }
  eapply Hgen; [apply inv_new| |done]. by intros ?.
Qed.

(** A task of a reachable handler belongs to a handler that still exists. *)
Lemma reachable_not_released h c (x : task) :
  reachable h → tasks h !! c = Some x → phase h ≠ released.
Proof.
  intros Hr Hc Hp. apply (reachable_quiet h Hr) in Hp.
  rewrite Hp, lookup_empty in Hc. done.
Qed.

(** ** What [handle_commit] does to a waiting session *)

Lemma pulse_done_waiting c h f :
  tasks h !! c = Some (coro_waiting f) →
  pulse_done c h =
  set_tasks (<[c := coro_waiting
                 (mk_frame (frame_ack_mailbox f) (invalid_condition f) true)]>
               (tasks h)) h.
Proof. intros E. unfold pulse_done. by rewrite E. Qed.

Lemma is_pulsed_waiting c h f :
  tasks h !! c = Some (coro_waiting f) → is_pulsed c h = invalid_condition f.
Proof. intros E. unfold is_pulsed. by rewrite E. Qed.

Lemma handle_commit_abandon h c f msg :
  tasks h !! c = Some (coro_waiting f) → commit msg = false →
  handle_commit c msg h =
  set_tasks (<[c := coro_waiting
                 (mk_frame (frame_ack_mailbox f) (invalid_condition f) true)]>
               (tasks h)) h.
Proof.
  intros E Hc. unfold handle_commit. rewrite Hc. by apply pulse_done_waiting.
Qed.

Lemma handle_commit_reject h c f msg :
  inv h → tasks h !! c = Some (coro_waiting f) →
  commit msg = true → invalid_condition f = true →
  handle_commit c msg h =
  set_tasks (<[c := coro_waiting (mk_frame (frame_ack_mailbox f) true true)]>
               (tasks (spawn_sometime
                         (send_result_spawned false (result_mailbox msg)) h)))
    (spawn_sometime (send_result_spawned false (result_mailbox msg)) h).
Proof.
  intros Hinv E Hc Hf. unfold handle_commit.
  rewrite Hc, (is_pulsed_waiting c h f E), Hf. simpl negb. cbv iota.
  pose proof (inv_live h c _ Hinv E).
  rewrite (pulse_done_waiting c _ f); [by rewrite Hf|].
  simpl. rewrite lookup_insert_ne by lia. done.
Qed.

Lemma handle_commit_accept h c f msg :
  inv h → tasks h !! c = Some (coro_waiting f) →
  commit msg = true → invalid_condition f = false →
  let h1 := spawn_sometime (send_result_spawned true (result_mailbox msg))
              (update (metadata msg) h) in
  handle_commit c msg h =
  set_tasks (<[c := coro_waiting (mk_frame (frame_ack_mailbox f) true true)]>
               (tasks h1)) h1.
Proof.
  intros Hinv E Hc Hf h1. unfold handle_commit.
  rewrite Hc, (is_pulsed_waiting c h f E), Hf. simpl negb. cbv iota.
  destruct (inv_waiting h c f Hinv E) as (Hin&Hlt&_).
  destruct (update_fields (metadata msg) h) as (_&_&_&Hn&_).
  rewrite (pulse_done_waiting c _
             (mk_frame (frame_ack_mailbox f) true (commit_done f))); [done|].
  unfold spawn_sometime, acquire_lock.
  cbn [tasks next_coro set_tasks set_next_coro set_drainer].
  rewrite Hn, lookup_insert_ne by lia.
  rewrite update_tasks, decide_True by done. by rewrite E.
Qed.

(** A spawned [send_result] sends its Result when the scheduler runs it. *)
Lemma schedule_send_result h c result to :
  phase h ≠ released → tasks h !! c = Some (send_result_spawned result to) →
  step (ev_schedule c) h = Done (send_result c result to h) ∧
  trace (send_result c result to h) =
    trace h ++ [obs_send to (msg_result (mk_result_msg result))].
Proof.
  intros Hp E. split; [|done].
  unfold step, schedule. rewrite E. by destruct (phase h).
Qed.

(** Delivering a Commit to the mailbox of a waiting session runs
    [handle_commit]. *)
Lemma step_commit_waiting h c f msg :
  phase h ≠ released → tasks h !! c = Some (coro_waiting f) →
  step (ev_commit c msg) h = Done (handle_commit c msg h).
Proof. intros Hp E. unfold step. rewrite E. by destruct (phase h). Qed.

(** ** The flag of a session and the updates since its Ack *)

Lemma count_insert_pos c t :
  0 < count_insert c t → ∃ j, t !! j = Some (obs_insert c).
Proof.
  induction t as [|o t IH]; simpl; [lia|].
  destruct o as [m|c'|c'|to m];
    try (intros Hpos; destruct (IH Hpos) as [j Hj]; by exists (S j)).
  case_decide as Hc.
  - subst c'. intros _. by exists 0.
  - intros Hpos. destruct IH as [j Hj]; [lia|]. by exists (S j).
Qed.

(** The trace of a waiting session holds the Ack that the session sent. *)
Lemma waiting_ack_split h c f :
  inv h → tasks h !! c = Some (coro_waiting f) →
  ∃ pre to snapshot rest,
    trace h = pre ++ obs_send to (msg_ack (mk_ack_msg snapshot
                                            (commit_mailbox_of h c))) :: rest.
Proof.
  intros Hinv E. destruct (inv_waiting h c f Hinv E) as (_&_&Hins&_).
  destruct (count_insert_pos c (trace h)) as [j Hj]; [lia|].
  destruct (inv_insert h Hinv j c Hj) as (to & snapshot & HS).
  exists (take (S j) (trace h)), to, snapshot, (drop (S (S j)) (trace h)).
  by rewrite take_drop_middle.
Qed.

(** The flag of a waiting session says whether [update] was called after the
    session's Ack. *)
Lemma flag_since_ack h c f pre to snapshot rest :
  inv h → tasks h !! c = Some (coro_waiting f) →
  trace h = pre ++ obs_send to (msg_ack (mk_ack_msg snapshot
                                          (commit_mailbox_of h c))) :: rest →
  invalid_condition f = update_called rest.
Proof.
  intros Hinv E Ht. destruct (inv_waiting h c f Hinv E) as (_&_&Hins&_&Hflag).
  destruct (inv_ack h Hinv (length pre) to
              (mk_ack_msg snapshot (commit_mailbox_of h c)))
    as (j & c' & Hlen & Hj & Haddr).
  { rewrite Ht, lookup_app_r by lia. by rewrite Nat.sub_diag. }
  simpl in Haddr. injection Haddr as Hcc. subst c'.
  rewrite Ht, lookup_app_l in Hj by lia.
  assert (pre = take j pre ++ [obs_insert c]) as Hpre.
  { rewrite <-(take_drop_middle pre j (obs_insert c) Hj) at 1.
    rewrite drop_ge by lia. done. }
  rewrite Hpre, <-app_assoc in Ht. simpl in Ht.
  rewrite Ht in Hins, Hflag.
  rewrite count_insert_app in Hins. simpl in Hins.
  rewrite decide_True in Hins by done.
  rewrite since_insert_fresh in Hflag by lia. done.
Qed.

Lemma handle_commit_accept_fields h c f msg :
  inv h → tasks h !! c = Some (coro_waiting f) →
  commit msg = true → invalid_condition f = false →
  let h' := handle_commit c msg h in
  metadata_view h' = semilattice_join (metadata_view h) (metadata msg) ∧
  trace h' = trace h ++ [obs_join (metadata msg)] ∧
  coro_invalid_conditions h' = coro_invalid_conditions h ∧
  tasks h' !! c = Some (coro_waiting (mk_frame (frame_ack_mailbox f) true true)) ∧
  tasks h' !! next_coro h =
    Some (send_result_spawned true (result_mailbox msg)).
Proof.
  intros Hinv E Hc Hf h'. unfold h'.
  rewrite (handle_commit_accept h c f msg Hinv E Hc Hf).
  destruct (update_fields (metadata msg) h) as (Hv&Hr&_&Hn&_&_&_&Ht).
  pose proof (inv_live h c _ Hinv E).
  unfold spawn_sometime, acquire_lock.
  cbn [tasks next_coro set_tasks set_next_coro set_drainer metadata_view trace
       coro_invalid_conditions].
  rewrite Hn. split_and!; try done.
  - by rewrite lookup_insert_eq.
  - rewrite lookup_insert_ne by lia. by rewrite lookup_insert_eq.
Qed.

Lemma handle_commit_reject_fields h c f msg :
  inv h → tasks h !! c = Some (coro_waiting f) →
  commit msg = true → invalid_condition f = true →
  let h' := handle_commit c msg h in
  metadata_view h' = metadata_view h ∧
  trace h' = trace h ∧
  coro_invalid_conditions h' = coro_invalid_conditions h ∧
  tasks h' !! c = Some (coro_waiting (mk_frame (frame_ack_mailbox f) true true)) ∧
  tasks h' !! next_coro h =
    Some (send_result_spawned false (result_mailbox msg)).
Proof.
  intros Hinv E Hc Hf h'. unfold h'.
  rewrite (handle_commit_reject h c f msg Hinv E Hc Hf).
  pose proof (inv_live h c _ Hinv E).
  simpl. split_and!; try done.
  - by rewrite lookup_insert_eq.
  - rewrite lookup_insert_ne by lia. by rewrite lookup_insert_eq.
Qed.

(** ** What one step adds to the trace and does to the store *)

Lemma step_effect e h h' :
  inv h → step e h = Done h' →
  ∃ delta, trace h' = trace h ++ delta ∧
    ((∃ m, e = ev_update m ∧ joins delta = [m] ∧
           metadata_view h' = semilattice_join (metadata_view h) m) ∨
     (∃ c msg f, e = ev_commit c msg ∧ commit msg = true ∧
           tasks h !! c = Some (coro_waiting f) ∧ invalid_condition f = false ∧
           joins delta = [metadata msg] ∧
           metadata_view h' = semilattice_join (metadata_view h) (metadata msg)) ∨
     (joins delta = [] ∧ metadata_view h' = metadata_view h)).
Proof.
  intros Hinv. unfold step.
  destruct (phase h) eqn:Hp; [| |done];
    (destruct e as [msg|c msg|c|p|m| |];
     [ intros [= <-]; exists []; split; [simpl; by rewrite app_nil_r|by right; right]
     | destruct (tasks h !! c) as [[?|f|??]|] eqn:E; intros [= <-];
       [ exists []; split; [simpl; by rewrite app_nil_r|by right; right]
       | destruct (commit msg) eqn:Hc;
         [ destruct (invalid_condition f) eqn:Hf;
           [ destruct (handle_commit_reject_fields h c f msg Hinv E Hc Hf)
               as (Hv&Ht&_);
             exists []; split; [by rewrite Ht, app_nil_r|by right; right]
           | destruct (handle_commit_accept_fields h c f msg Hinv E Hc Hf)
               as (Hv&Ht&_);
             exists [obs_join (metadata msg)]; split; [done|];
             right; left; by exists c, msg, f ]
         | rewrite (handle_commit_abandon h c f msg E Hc);
           exists []; split; [simpl; by rewrite app_nil_r|by right; right] ]
       | exists []; split; [simpl; by rewrite app_nil_r|by right; right]
       | exists []; split; [simpl; by rewrite app_nil_r|by right; right] ]
     | unfold schedule, remote_change_request_coro_resume;
       destruct (tasks h !! c) as [[ack|f|result to]|]; [| | |done];
       [ intros [= <-];
         exists [obs_insert c;
                 obs_send ack (msg_ack (mk_ack_msg (metadata_view h)
                                          (commit_mailbox_of h c)))];
         split; [simpl; by rewrite <-app_assoc|by right; right]
       | destruct (wait_any f h); [|done];
         destruct (commit_done f || _); [|done];
         intros [= <-]; exists [obs_erase c]; split; [done|by right; right]
       | intros [= <-];
         exists [obs_send to (msg_result (mk_result_msg result))];
         split; [done|by right; right] ]
     | intros [= <-]; exists []; split; [simpl; by rewrite app_nil_r|by right; right]
     | intros [= <-];
       destruct (update_fields m h) as (Hv&_&_&_&_&_&_&Ht);
       exists [obs_join m]; split; [done|left; by exists m]
     | first [done
             |unfold destructor_body; case_decide; [|done]; intros [= <-];
              exists []; split; [simpl; by rewrite app_nil_r|by right; right]]
     | first [done
             |unfold destructor_drained; destruct (drainer h); [|done];
              intros [= <-]; exists [];
              split; [simpl; by rewrite app_nil_r|by right; right]] ]).
Qed.

Lemma run_trace es h h' :
  inv h → run es h = Done h' → ∃ delta, trace h' = trace h ++ delta.
Proof.
  revert h. induction es as [|e es IH]; intros h Hinv; simpl.
  - intros [= <-]. exists []. by rewrite app_nil_r.
  - destruct (step e h) as [h1| |] eqn:E; [|done|done].
    intros Hrun. destruct (step_effect e h h1 Hinv E) as (d1 & Hd1 & _).
    destruct (IH h1 (inv_step e h h1 Hinv E) Hrun) as (d2 & Hd2).
    exists (d1 ++ d2). by rewrite Hd2, Hd1, app_assoc.
Qed.

(** Resuming a session whose wait is over takes its flag out of the
    registry and ends the coroutine. *)
Lemma schedule_resume h c f :
  phase h ≠ released → tasks h !! c = Some (coro_waiting f) →
  wait_any f h = true →
  ∃ h', step (ev_schedule c) h = Done h' ∧
        trace h' = trace h ++ [obs_erase c] ∧
        (c ∉ coro_invalid_conditions h') ∧ tasks h' !! c = None ∧
        metadata_view h' = metadata_view h.
Proof.
  intros Hp E Hw. eexists. split.
  - unfold step, schedule, remote_change_request_coro_resume.
    rewrite E, Hw. unfold wait_any in Hw. rewrite Hw. by destruct (phase h).
  - simpl. split_and!; [done|apply registry_erase_eq| |done].
    by rewrite lookup_delete_eq.
Qed.

(** The flag of a session after a run: what it was, or set by an [update]
    of the run. *)
Lemma run_flag es h h' c f x :
  inv h → run es h = Done h' →
  tasks h !! c = Some (coro_waiting f) → tasks h' !! c = Some x →
  ∃ f' delta, x = coro_waiting f' ∧ trace h' = trace h ++ delta ∧
    invalid_condition f' = invalid_condition f || update_called delta.
Proof.
  intros Hinv Hrun E E'.
  pose proof (inv_run es h h' Hinv Hrun) as Hinv'.
  destruct (run_trace es h h' Hinv Hrun) as [delta Hd].
  destruct (inv_waiting h c f Hinv E) as (_&_&Hins&_&Hflag).
  pose proof (inv_task h' Hinv' c) as Hc. unfold task_inv in Hc.
  rewrite E', Hd, count_insert_app in Hc.
  destruct x as [?|f'|??]; [destruct Hc as (_&?&_); lia| |destruct Hc as (_&?&_); lia].
  destruct Hc as (_&_&_&Hflag').
  exists f', delta. split_and!; [done..|].
  rewrite since_insert_app in Hflag' by lia.
  by rewrite Hflag', update_called_app, Hflag.
Qed.

(** ** How a waiting [update()] of the requester comes back *)

(** A requester inside [update()] that is handed a Result on its result
    mailbox and is then resumed returns the value of the Result. *)
Lemma update_wakes_on_result r mb watched (res : result_msg_t) :
  pc r = in_update mb None watched →
  ∃ r',
    request_run [rev_result mb res; rev_resume] r = Done r' ∧
    pc r' = constructed ∧
    request_trace r' = request_trace r ++ [robs_return (value res)].
Proof.
  intros Hpc. eexists. split.
  - simpl. rewrite Hpc. rewrite decide_True by done.
    unfold request_promise_pulse. rewrite Hpc. simpl. reflexivity.
  - done.
Qed.

(** A requester inside [update()] with no Result that loses the node it
    watches and is then resumed returns false. *)
Lemma update_wakes_on_disconnect r mb watched :
  pc r = in_update mb None watched →
  ∃ r',
    request_run [rev_disconnect watched; rev_resume] r = Done r' ∧
    pc r' = constructed ∧
    request_trace r' = request_trace r ++ [robs_return false].
Proof.
  intros Hpc. eexists. split.
  - simpl. rewrite Hpc. unfold request_dc_is_pulsed. simpl.
    rewrite bool_decide_eq_true_2 by apply registry_insert_eq.
    rewrite ?orb_true_r. reflexivity.
  - done.
Qed.

(** ** The claims about the handler *)

(** C1.  Optimistic concurrency of a commit.  Let session [c] of a reachable
    handler wait for its Commit, and let a Commit{commit=true, metadata}
    reach its commit mailbox.  The trace of the handler holds the Ack of the
    session, and with [updated] saying whether [update()] was called after
    that Ack (by the owner or through an accepted commit):
    if not, the store becomes the join of the store at commit time with the
    committed metadata and Result{true} is spawned and then sent to the
    result mailbox; if so, the store is left as it is, [join] is not called,
    and Result{false} is sent.  At the other end, a requester that waits
    inside [update()] on that result mailbox and is handed the Result the
    handler sent returns from [update()] with the value of that Result,
    false after an update, and is back in its constructed state; if it loses
    the handler's node instead, [update()] returns false as well. *)
Theorem commit_outcome h c f msg :
  reachable h → tasks h !! c = Some (coro_waiting f) → commit msg = true →
  (∃ pre to snapshot rest,
     trace h = pre ++ obs_send to (msg_ack (mk_ack_msg snapshot
                                             (commit_mailbox_of h c))) :: rest) ∧
  ∀ pre to snapshot rest,
    trace h = pre ++ obs_send to (msg_ack (mk_ack_msg snapshot
                                            (commit_mailbox_of h c))) :: rest →
    let updated := update_called rest in
    ∃ h' h'',
      step (ev_commit c msg) h = Done h' ∧
      metadata_view h' =
        (if updated then metadata_view h
         else semilattice_join (metadata_view h) (metadata msg)) ∧
      joins (trace h') =
        joins (trace h) ++ (if updated then [] else [metadata msg]) ∧
      tasks h' !! next_coro h =
        Some (send_result_spawned (negb updated) (result_mailbox msg)) ∧
      step (ev_schedule (next_coro h)) h' = Done h'' ∧
      trace h'' =
        trace h' ++ [obs_send (result_mailbox msg)
                       (msg_result (mk_result_msg (negb updated)))] ∧
      metadata_view h'' = metadata_view h' ∧
      ∀ r mb watched,
        pc r = in_update mb None watched →
        result_mailbox msg = mk_address (request_manager r) mb →
        (∃ r',
           request_run [rev_result (get_mailbox (result_mailbox msg))
                          (mk_result_msg (negb updated));
                        rev_resume] r = Done r' ∧
           pc r' = constructed ∧
           request_trace r' = request_trace r ++ [robs_return (negb updated)]) ∧
        (∃ r',
           request_run [rev_disconnect watched; rev_resume] r = Done r' ∧
           pc r' = constructed ∧
           request_trace r' = request_trace r ++ [robs_return false]).
Proof.
  intros Hreach E Hc.
  pose proof (reachable_inv h Hreach) as Hinv.
  pose proof (reachable_not_released h c _ Hreach E) as Hp.
  split; [by eapply waiting_ack_split|].
  intros pre to snapshot rest Ht updated.
  pose proof (flag_since_ack h c f pre to snapshot rest Hinv E Ht) as Hflag.
  fold updated in Hflag.
  exists (handle_commit c msg h).
  assert (phase (handle_commit c msg h) ≠ released) as Hp'
    by (by rewrite handle_commit_phase).
  destruct updated eqn:Hu.
  - destruct (handle_commit_reject_fields h c f msg Hinv E Hc Hflag)
      as (Hv&Htr&_&_&Hnew).
    destruct (schedule_send_result _ _ _ _ Hp' Hnew) as [Hs Hs'].
    eexists. split_and!; try done.
    + by apply (step_commit_waiting h c f).
    + by rewrite Htr, app_nil_r.
    + intros r mb watched Hpc Hmb. rewrite Hmb. split.
      * exact (update_wakes_on_result r mb watched (mk_result_msg false) Hpc).
      * exact (update_wakes_on_disconnect r mb watched Hpc).
  - destruct (handle_commit_accept_fields h c f msg Hinv E Hc Hflag)
      as (Hv&Htr&_&_&Hnew).
    destruct (schedule_send_result _ _ _ _ Hp' Hnew) as [Hs Hs'].
    eexists. split_and!; try done.
    + by apply (step_commit_waiting h c f).
    + by rewrite Htr, joins_app.
    + intros r mb watched Hpc Hmb. rewrite Hmb. split.
      * exact (update_wakes_on_result r mb watched (mk_result_msg true) Hpc).
      * exact (update_wakes_on_disconnect r mb watched Hpc).
Qed.

(** C9.  In an accepted commit the outcome is latched before the merge.
    Session [c] is still in the registry when its Commit{true} arrives with
    its flag unset; the [update()] that [handle_commit] then calls pulses
    the flag of [c] itself, and the Result that is spawned and sent is still
    Result{true}. *)
Theorem accepted_commit_pulses_own_flag h c f msg :
  reachable h → tasks h !! c = Some (coro_waiting f) →
  invalid_condition f = false → commit msg = true →
  c ∈ coro_invalid_conditions h ∧
  is_pulsed c h = false ∧
  is_pulsed c (update (metadata msg) h) = true ∧
  ∃ h' h'',
    step (ev_commit c msg) h = Done h' ∧
    c ∈ coro_invalid_conditions h' ∧
    is_pulsed c h' = true ∧
    tasks h' !! next_coro h =
      Some (send_result_spawned true (result_mailbox msg)) ∧
    step (ev_schedule (next_coro h)) h' = Done h'' ∧
    trace h'' =
      trace h' ++ [obs_send (result_mailbox msg)
                     (msg_result (mk_result_msg true))].
Proof.
  intros Hreach E Hf Hc.
  pose proof (reachable_inv h Hreach) as Hinv.
  pose proof (reachable_not_released h c _ Hreach E) as Hp.
  destruct (inv_waiting h c f Hinv E) as (Hin&_).
  split_and!; [done|by rewrite (is_pulsed_waiting c h f)| |].
  - unfold is_pulsed. rewrite update_tasks, decide_True by done.
    by rewrite E.
  - exists (handle_commit c msg h).
    assert (phase (handle_commit c msg h) ≠ released) as Hp'
      by (by rewrite handle_commit_phase).
    destruct (handle_commit_accept_fields h c f msg Hinv E Hc Hf)
      as (_&_&Hr&Hc'&Hnew).
    destruct (schedule_send_result _ _ _ _ Hp' Hnew) as [Hs Hs'].
    eexists. split_and!; try done.
    + by apply (step_commit_waiting h c f).
    + by rewrite Hr.
    + unfold is_pulsed. by rewrite Hc'.
Qed.

(** C2.  Who calls [join].  A step of a reachable handler that calls
    [join], or changes the store, is the owner's own [update(m)] or the
    delivery of a Commit{commit=true} to a session whose flag is not set;
    every other step (a Commit{false}, a rejected commit, a disconnect, the
    resumption of a session, the sending of a Result) leaves the store and
    the list of [join] calls as they are.  A Commit{false} moreover adds
    nothing to the trace and spawns no task, so no Result is sent, and the
    session it reaches can then be resumed, which takes its flag out of the
    registry and ends it. *)
Theorem join_only_on_accepted_commit e h h' :
  reachable h → step e h = Done h' →
  (∃ delta, trace h' = trace h ++ delta ∧
    ((∃ m, e = ev_update m ∧ joins delta = [m] ∧
           metadata_view h' = semilattice_join (metadata_view h) m) ∨
     (∃ c msg f, e = ev_commit c msg ∧ commit msg = true ∧
           tasks h !! c = Some (coro_waiting f) ∧ invalid_condition f = false ∧
           joins delta = [metadata msg] ∧
           metadata_view h' = semilattice_join (metadata_view h) (metadata msg)) ∨
     (joins delta = [] ∧ metadata_view h' = metadata_view h))) ∧
  (∀ c msg f, e = ev_commit c msg → tasks h !! c = Some (coro_waiting f) →
     invalid_condition f = true →
     joins (trace h') = joins (trace h) ∧ metadata_view h' = metadata_view h) ∧
  (∀ p, e = ev_disconnect p →
     trace h' = trace h ∧ metadata_view h' = metadata_view h) ∧
  (∀ c msg f, e = ev_commit c msg → tasks h !! c = Some (coro_waiting f) →
     commit msg = false →
     trace h' = trace h ∧ metadata_view h' = metadata_view h ∧
     dom (tasks h') = dom (tasks h) ∧ next_coro h' = next_coro h ∧
     ∃ h'', step (ev_schedule c) h' = Done h'' ∧
            trace h'' = trace h ++ [obs_erase c] ∧
            (c ∉ coro_invalid_conditions h'') ∧ tasks h'' !! c = None ∧
            metadata_view h'' = metadata_view h).
Proof.
  intros Hreach Hstep. pose proof (reachable_inv h Hreach) as Hinv.
  destruct (step_effect e h h' Hinv Hstep) as (delta & Hd & Hcases).
  split_and!.
  - by exists delta.
  - intros c msg f -> E Hf.
    destruct Hcases as [(m&?&_)|[(c'&msg'&f'&[= <- <-]&_&E'&Hf'&_)|[Hj Hv]]];
      [done|congruence|].
    split; [|done]. by rewrite Hd, joins_app, Hj, app_nil_r.
  - intros p ->. unfold step in Hstep.
    destruct (phase h); [| |done]; by injection Hstep as <-.
  - intros c msg f -> E Hc.
    pose proof (reachable_not_released h c _ Hreach E) as Hp.
    rewrite (step_commit_waiting h c f msg Hp E) in Hstep.
    injection Hstep as <-.
    rewrite (handle_commit_abandon h c f msg E Hc).
    simpl. split_and!; try done.
    + rewrite dom_insert_L. apply elem_of_dom_2 in E.
      apply set_eq. intros c'. rewrite elem_of_union, elem_of_singleton.
      split; [intros [->|?]; done|by right].
    + apply (schedule_resume
               (set_tasks (<[c:=coro_waiting
                    (mk_frame (frame_ack_mailbox f) (invalid_condition f) true)]>
                  (tasks h)) h) c
               (mk_frame (frame_ack_mailbox f) (invalid_condition f) true));
        [done|by simpl; rewrite lookup_insert_eq|done].
Qed.

(** C3.  The invalidation flag.  Over any run of a reachable handler, the
    flag of a session that is still there is what it was, or-ed with whether
    [update()] was called during the run: once set it stays set, and nothing
    but an [update()] sets it.  One call of [update()] sets the flag of every
    session waiting at that time, each in its own frame and with the rest of
    the frame untouched, leaves every other task and the registry as they
    are; the registry holds exactly the waiting sessions. *)
Theorem invalid_condition_one_shot h :
  reachable h →
  (∀ es h' c f x,
     run es h = Done h' → tasks h !! c = Some (coro_waiting f) →
     tasks h' !! c = Some x →
     ∃ f' delta, x = coro_waiting f' ∧ trace h' = trace h ++ delta ∧
       invalid_condition f' = invalid_condition f || update_called delta) ∧
  (∀ m c f,
     tasks h !! c = Some (coro_waiting f) →
     tasks (update m h) !! c =
       Some (coro_waiting (mk_frame (frame_ack_mailbox f) true (commit_done f)))) ∧
  (∀ m c x,
     tasks h !! c = Some x → (∀ f, x ≠ coro_waiting f) →
     tasks (update m h) !! c = Some x) ∧
  (∀ m, dom (tasks (update m h)) = dom (tasks h) ∧
        coro_invalid_conditions (update m h) = coro_invalid_conditions h) ∧
  (∀ c, c ∈ coro_invalid_conditions h ↔
        ∃ f, tasks h !! c = Some (coro_waiting f)).
Proof.
  intros Hreach. pose proof (reachable_inv h Hreach) as Hinv.
  split_and!.
  - intros es h' c f x. by apply run_flag.
  - intros m c f E. destruct (inv_waiting h c f Hinv E) as (Hin&_).
    rewrite update_tasks, decide_True by done. by rewrite E.
  - intros m c x E Hx. rewrite update_tasks, E.
    case_decide; [|done]. destruct x as [?|f|??]; [done|by destruct (Hx f)|done].
  - intros m. split; [apply update_dom|].
    by destruct (update_fields m h) as (_&?&_).
  - intros c. split; [by apply inv_registered|].
    intros [f E]. by destruct (inv_waiting h c f Hinv E) as (?&_).
Qed.

(** After [handle_commit] the session is still registered and its wait is
    over, whatever the Commit said. *)
Lemma handle_commit_ends_wait h c f msg :
  inv h → tasks h !! c = Some (coro_waiting f) →
  ∃ f', tasks (handle_commit c msg h) !! c = Some (coro_waiting f') ∧
        commit_done f' = true ∧
        coro_invalid_conditions (handle_commit c msg h) = coro_invalid_conditions h.
Proof.
  intros Hinv E. destruct (commit msg) eqn:Hc.
  - destruct (invalid_condition f) eqn:Hf.
    + destruct (handle_commit_reject_fields h c f msg Hinv E Hc Hf)
        as (_&_&Hr&Hc'&_). by eexists.
    + destruct (handle_commit_accept_fields h c f msg Hinv E Hc Hf)
        as (_&_&Hr&Hc'&_). by eexists.
  - rewrite (handle_commit_abandon h c f msg E Hc). simpl.
    rewrite lookup_insert_eq. by eexists.
Qed.

(** C4, as the code has it.  In the trace of a reachable handler every Ack
    comes right after the registration of the session whose commit mailbox it
    carries.  A flag is put into the registry at most once and taken out at
    most once, and only after it was put in; it is in the registry exactly
    while its session waits, and a session that has ended has been taken out
    as often as it was put in.  On every terminal path (a Commit accepted or
    rejected, a Commit{false}, the disconnect of the requester) the wait of
    the session is over while the flag is still registered, and resuming the
    session then erases the flag once and ends the session; a session whose
    wait is not over cannot be resumed.  (The Result is sent by a task of its
    own; nothing orders it and the removal.) *)
Theorem registry_lifecycle h :
  reachable h →
  (∀ i to a, trace h !! i = Some (obs_send to (msg_ack a)) →
     ∃ j c, i = S j ∧ trace h !! j = Some (obs_insert c) ∧
            ack_commit_mailbox_address a = commit_mailbox_of h c) ∧
  (∀ c, count_insert c (trace h) ≤ 1 ∧
        count_erase c (trace h) ≤ count_insert c (trace h) ∧
        (c ∈ coro_invalid_conditions h ↔
           count_insert c (trace h) = 1 ∧ count_erase c (trace h) = 0) ∧
        (c ∈ coro_invalid_conditions h ↔
           ∃ f, tasks h !! c = Some (coro_waiting f)) ∧
        (tasks h !! c = None →
           count_erase c (trace h) = count_insert c (trace h))) ∧
  (∀ c f, tasks h !! c = Some (coro_waiting f) →
     if wait_any f h then
       ∃ h', step (ev_schedule c) h = Done h' ∧
             trace h' = trace h ++ [obs_erase c] ∧
             (c ∉ coro_invalid_conditions h') ∧ tasks h' !! c = None
     else step (ev_schedule c) h = Blocked) ∧
  (∀ c f msg, tasks h !! c = Some (coro_waiting f) →
     ∃ h' f', step (ev_commit c msg) h = Done h' ∧
              tasks h' !! c = Some (coro_waiting f') ∧
              wait_any f' h' = true ∧ c ∈ coro_invalid_conditions h') ∧
  (∀ c f, tasks h !! c = Some (coro_waiting f) →
     ∃ h', step (ev_disconnect (get_peer (frame_ack_mailbox f))) h = Done h' ∧
           tasks h' !! c = Some (coro_waiting f) ∧
           wait_any f h' = true ∧ c ∈ coro_invalid_conditions h').
Proof.
  intros Hreach. pose proof (reachable_inv h Hreach) as Hinv.
  split_and!.
  - apply (inv_ack h Hinv).
  - intros c. pose proof (inv_task h Hinv c) as Hc. unfold task_inv in Hc.
    destruct (tasks h !! c) as [[?|f|??]|] eqn:E;
      [destruct Hc as (Hr&Hi&He)|destruct Hc as (Hr&Hi&He&Hf)
      |destruct Hc as (Hr&Hi&He)|destruct Hc as (Hr&Hi&He)];
      (split_and!;
       [ lia | lia
       | split; [intros Hin|intros [Hi1 He0]];
         first [done|contradiction|lia|split; lia]
       | split; [intros Hin|intros [f' Ef]];
         first [done|contradiction|by eexists]
       | intros En; first [done|lia] ]).
  - intros c f E.
    pose proof (reachable_not_released h c _ Hreach E) as Hp.
    destruct (wait_any f h) eqn:Hw.
    + destruct (schedule_resume h c f Hp E Hw) as (h' & ? & ? & ? & ? & _).
      by exists h'.
    + unfold step, schedule. rewrite E, Hw. by destruct (phase h).
  - intros c f msg E.
    pose proof (reachable_not_released h c _ Hreach E) as Hp.
    destruct (handle_commit_ends_wait h c f msg Hinv E) as (f' & E' & Hd & Hr).
    exists (handle_commit c msg h), f'. split_and!.
    + by apply (step_commit_waiting h c f).
    + done.
    + unfold wait_any. by rewrite Hd.
    + rewrite Hr. by destruct (inv_waiting h c f Hinv E).
  - intros c f E.
    pose proof (reachable_not_released h c _ Hreach E) as Hp.
    eexists. split_and!.
    + unfold step. by destruct (phase h).
    + done.
    + unfold wait_any, dc_watcher_is_pulsed. simpl.
      rewrite bool_decide_eq_true_2; [apply orb_true_r|].
      apply registry_insert_eq.
    + simpl. by destruct (inv_waiting h c f Hinv E).
Qed.

(** C8.  Destroying the handler.  The body of the destructor is a
    [guarantee]: with a flag still in the registry, which is to say with a
    session still waiting, destroying the handler is fatal, and so is every
    run that goes on from there; with an empty registry the handler starts
    draining.  A draining handler is released only when no spawned task, be
    it a session or the sending of a Result, is left, the drainer being
    blocked until then; and a released handler has no task. *)
Theorem destructor_needs_empty_registry h :
  reachable h →
  (phase h = alive → coro_invalid_conditions h ≠ ∅ →
     step ev_destroy h = Fatal ∧ ∀ es, run (ev_destroy :: es) h = Fatal) ∧
  (coro_invalid_conditions h ≠ ∅ ↔
     ∃ c f, tasks h !! c = Some (coro_waiting f)) ∧
  (phase h = alive → coro_invalid_conditions h = ∅ →
     step ev_destroy h = Done (set_phase draining h)) ∧
  (phase h = draining → tasks h ≠ ∅ → step ev_drained h = Blocked) ∧
  (phase h = draining → tasks h = ∅ →
     step ev_drained h = Done (set_phase released h)) ∧
  (∀ e h', step e h = Done h' → phase h' = released →
     e = ev_drained ∧ tasks h = ∅ ∧ phase h = draining) ∧
  (phase h = released → tasks h = ∅ ∧ ∀ e, step e h = Blocked).
Proof.
  intros Hreach. pose proof (reachable_inv h Hreach) as Hinv.
  pose proof (inv_drainer h Hinv) as Hd.
  split_and!.
  - intros Hp Hne.
    assert (step ev_destroy h = Fatal) as Hf.
    { unfold step, destructor_body. rewrite Hp. by rewrite decide_False. }
    split; [done|]. intros es. simpl. by rewrite Hf.
  - split.
    + intros Hne. apply set_choose_L in Hne as [c Hc].
      exists c. by apply inv_registered.
    + intros (c & f & E) Hempty.
      destruct (inv_waiting h c f Hinv E) as (Hin&_).
      rewrite Hempty in Hin. by apply not_elem_of_empty in Hin.
  - intros Hp He. unfold step, destructor_body. rewrite Hp.
    by rewrite decide_True.
  - intros Hp Hne. unfold step, destructor_drained. rewrite Hp.
    apply map_size_non_empty_iff in Hne. destruct (drainer h); [done|done].
  - intros Hp He. unfold step, destructor_drained. rewrite Hp.
    rewrite Hd, He, map_size_empty. done.
  - intros e h' Hstep Hrel.
    assert (phase h ≠ released) as Hp.
    { intros Hp. unfold step in Hstep. by rewrite Hp in Hstep. }
    destruct (step_phase e h h' Hstep) as [?|[?|[_ Hz]]]; [congruence..|].
    assert (tasks h = ∅) as Hempty.
    { apply map_size_empty_inv. by rewrite <-Hd. }
    unfold step in Hstep.
    destruct e as [msg|c msg|c|p|m| |].
    + destruct (phase h) eqn:E; [| |done]; injection Hstep as <-;
        simpl in Hrel; congruence.
    + rewrite Hempty, lookup_empty in Hstep.
      destruct (phase h) eqn:E; [| |done]; injection Hstep as <-; congruence.
    + unfold schedule in Hstep. rewrite Hempty, lookup_empty in Hstep.
      by destruct (phase h).
    + destruct (phase h) eqn:E; [| |done]; injection Hstep as <-;
        simpl in Hrel; congruence.
    + destruct (phase h) eqn:E; [| |done]; injection Hstep as <-;
        destruct (update_fields m h) as (_&_&_&_&_&Hph&_); congruence.
    + destruct (phase h) eqn:E; [|done|done]. unfold destructor_body in Hstep.
      case_decide; [|done]. injection Hstep as <-. simpl in Hrel. congruence.
    + by destruct (phase h) eqn:E.
  - intros Hp. split; [by apply (reachable_quiet h Hreach)|].
    intros e. unfold step. by rewrite Hp.
Qed.

(** ** The request object *)

Lemma request_run_app es1 es2 r :
  request_run (es1 ++ es2) r =
  match request_run es1 r with
  | Done r1 => request_run es2 r1
  | Fatal => Fatal
  | Blocked => Blocked
  end.
Proof.
  revert r. induction es1 as [|e es1 IH]; intros r; simpl; [done|].
  destruct (request_step e r); [apply IH|done|done].
Qed.

Lemma commits_sent_app (t1 t2 : list (request_obs metadata_t)) :
  commits_sent (t1 ++ t2) = commits_sent t1 ++ commits_sent t2.
Proof.
  induction t1 as [|o t1 IH]; [done|].
  destruct o as [to [?|?|?|?]|?|?]; simpl; by rewrite IH.
Qed.

Lemma updates_of_app (es1 es2 : list (request_event metadata_t)) :
  updates_of (es1 ++ es2) = updates_of es1 ++ updates_of es2.
Proof.
  induction es1 as [|e es1 IH]; [done|].
  destruct e; simpl; by rewrite IH.
Qed.

(** What the events from outside do to a constructor that is waiting. *)
Lemma constructor_wait es r mb d w :
  forallb external es = true → pc r = in_constructor mb d w →
  ∃ r', request_run es r = Done r' ∧
    pc r' = in_constructor mb (d || bool_decide (is_Some (last_ack mb es))) w ∧
    request_trace r' = request_trace r ∧
    object r' =
      match last_ack mb es with
      | Some a => mk_request (interest_acquired (object r)) (ack_metadata a)
                    (ack_commit_mailbox_address a)
      | None => object r
      end ∧
    request_dc_is_pulsed w r' = request_dc_is_pulsed w r || disconnects w es.
Proof.
  revert r d. induction es as [|e es IH]; intros r d Hext Hpc.
  - exists r. simpl. rewrite !orb_false_r. done.
  - simpl in Hext. apply andb_true_iff in Hext as [He Hes].
    destruct e as [mb' a|mb' res|p| |m| |]; try done; simpl.
    + rewrite Hpc. destruct (decide (mb' = mb)) as [->|Hne].
      * destruct (IH (request_handle_ack a r) true Hes) as (r' & Hrun & Hpc' & Ht & Ho & Hdc).
        { unfold request_handle_ack. by rewrite Hpc. }
        exists r'. rewrite Hrun. split; [done|].
        unfold request_handle_ack in Ht, Ho, Hdc. rewrite Hpc in Ht, Ho, Hdc.
        simpl in Ht, Ho, Hdc. rewrite Hpc', Ht, Ho, Hdc.
        destruct (last_ack mb es) eqn:El; simpl;
          rewrite ?bool_decide_eq_true_2 by eauto;
          rewrite ?orb_true_r; done.
      * destruct (IH r d Hes Hpc) as (r' & Hrun & Hpc' & Ht & Ho & Hdc).
        exists r'. rewrite Hrun. split; [done|].
        rewrite Hpc', Ht, Ho, Hdc. by destruct (last_ack mb es).
    + rewrite Hpc.
      destruct (IH r d Hes Hpc) as (r' & Hrun & Hpc' & Ht & Ho & Hdc).
      exists r'. rewrite Hrun. split; [done|].
      rewrite Hpc', Ht, Ho, Hdc. by destruct (last_ack mb es).
    + destruct (IH (request_set_disconnected ({[p]} ∪ request_disconnected r) r) d Hes)
        as (r' & Hrun & Hpc' & Ht & Ho & Hdc); [done|].
      exists r'. rewrite Hrun. split; [done|].
      rewrite Hpc', Ht, Ho, Hdc. simpl.
      split_and!; try (by destruct (last_ack mb es)).
      unfold request_dc_is_pulsed. simpl.
      rewrite orb_assoc. f_equal.
      destruct (decide (p = w)) as [->|Hne].
      * rewrite (bool_decide_eq_true_2 (w = w)) by done.
        rewrite orb_true_r. apply bool_decide_eq_true_2, registry_insert_eq.
      * rewrite (bool_decide_eq_false_2 (p = w)) by done. rewrite orb_false_r.
        apply bool_decide_ext. rewrite elem_of_union, elem_of_singleton.
        split; [intros [?|?]; [congruence|done]|by right].
Qed.


Lemma disconnects_before_ack_disconnects mb p (es : list (request_event metadata_t)) :
  disconnects_before_ack mb p es = true → disconnects p es = true.
Proof.
  induction es as [|e es IH]; [done|].
  destruct e as [mb' a|mb' res|q| |m| |]; simpl; try done.
  - case_decide; [done|apply IH].
  - intros [->|?]%orb_true_iff; [done|]. rewrite IH by done. apply orb_true_r.
Qed.

(** ** The claims about the request object *)

(** C10.  The disconnect wins a tie.  When the constructor resumes from its
    wait with the disconnect watcher pulsed it throws ResourceLost, whether
    or not [handle_ack] has run; it completes only with the watcher not
    pulsed, and then with what the Ack left in the object.  The tie can
    happen: an Ack is delivered and processed, so that the snapshot and the
    commit address are captured, the peer is then lost, and the constructor,
    resumed after both, throws. *)
Theorem disconnect_wins_over_ack r mb done watched :
  pc r = in_constructor mb done watched →
  (request_dc_is_pulsed watched r = true →
     ∃ r', request_step rev_resume r = Done r' ∧
           pc r' = thrown resource_lost_exc_t ∧
           request_trace r' = request_trace r ++ [robs_throw resource_lost_exc_t]) ∧
  (request_dc_is_pulsed watched r = false → done = true →
     ∃ r', request_step rev_resume r = Done r' ∧ pc r' = constructed ∧
           object r' = object r ∧ request_trace r' = request_trace r) ∧
  (request_dc_is_pulsed watched r = false → done = false →
     request_step rev_resume r = Blocked) ∧
  (∀ a, ∃ r',
     request_run [rev_ack mb a; rev_disconnect watched; rev_resume] r = Done r' ∧
     pc r' = thrown resource_lost_exc_t ∧
     remote_metadata (object r') = ack_metadata a ∧
     commit_mailbox_address (object r') = ack_commit_mailbox_address a).
Proof.
  intros Hpc. split_and!.
  - intros Hdc. eexists. split.
    + simpl. rewrite Hpc, Hdc, orb_true_r. done.
    + unfold request_constructor_resume. by rewrite Hdc.
  - intros Hdc ->. eexists. split.
    + simpl. rewrite Hpc, Hdc. done.
    + unfold request_constructor_resume. by rewrite Hdc.
  - intros Hdc ->. simpl. by rewrite Hpc, Hdc.
  - intros a. eexists. split.
    + simpl. rewrite Hpc, decide_True by done.
      unfold request_handle_ack. rewrite Hpc. simpl.
      reflexivity.
    + unfold request_constructor_resume, request_dc_is_pulsed. simpl.
      rewrite bool_decide_eq_true_2 by apply registry_insert_eq. done.
Qed.

(** C6, as the code has it.  A constructor that has sent its Request and is
    resumed after events from outside throws ResourceLost exactly when its
    disconnect watcher is pulsed by then: the peer was already lost, or was
    lost during the wait, before or after an Ack.  So it throws whenever the
    peer is lost before an Ack arrives; having thrown it has sent nothing
    but the Request, and no call on the object is possible.  With the
    watcher not pulsed the object is constructed, holds the snapshot and the
    commit address of the Ack, and has its interest flag set.  Nothing but
    the resumption of a constructor throws. *)
Theorem resource_lost_iff_watcher_pulsed me lost target es r :
  forallb external es = true →
  request_run (es ++ [rev_resume]) (request_constructor_begin me lost target)
    = Done r →
  let pulsed :=
    bool_decide (get_peer target ∈ lost) || disconnects (get_peer target) es in
  (pc r = thrown resource_lost_exc_t ↔ pulsed = true) ∧
  (bool_decide (get_peer target ∈ lost)
   || disconnects_before_ack 0 (get_peer target) es = true → pulsed = true) ∧
  (pulsed = true →
     request_trace r =
       [robs_send target (msg_request (mk_request_msg (mk_address me 0)));
        robs_throw resource_lost_exc_t] ∧
     ∀ e, external e = false → request_step e r = Blocked) ∧
  (pulsed = false →
     pc r = constructed ∧ interest_acquired (object r) = true ∧
     ∃ a, last_ack 0 es = Some a ∧
          remote_metadata (object r) = ack_metadata a ∧
          commit_mailbox_address (object r) = ack_commit_mailbox_address a) ∧
  (∀ r0 e r1 x,
     request_step e r0 = Done r1 → pc r1 = thrown x →
     pc r0 = thrown x ∨
     ∃ mb d w, pc r0 = in_constructor mb d w ∧ e = rev_resume ∧
               request_dc_is_pulsed w r0 = true).
Proof.
  intros Hext Hrun pulsed.
  rewrite request_run_app in Hrun.
  destruct (constructor_wait es (request_constructor_begin me lost target)
              0 false (get_peer target) Hext eq_refl)
    as (r' & Hr' & Hpc & Ht & Ho & Hdc).
  rewrite Hr' in Hrun. simpl in Hrun. rewrite Hpc in Hrun.
  change (request_dc_is_pulsed (get_peer target)
            (request_constructor_begin me lost target))
    with (bool_decide (get_peer target ∈ lost)) in Hdc.
  fold pulsed in Hdc. rewrite Hdc in Hrun.
  unfold request_constructor_resume in Hrun. rewrite Hdc in Hrun.
  split_and!.
  - destruct pulsed.
    + rewrite orb_true_r in Hrun. by injection Hrun as <-.
    + rewrite orb_false_r in Hrun.
      destruct (bool_decide (is_Some (last_ack 0 es))); [|done].
      injection Hrun as <-. done.
  - unfold pulsed. intros [->|Hb]%orb_true_iff; [done|].
    rewrite (disconnects_before_ack_disconnects _ _ _ Hb). apply orb_true_r.
  - intros Hp. rewrite Hp, orb_true_r in Hrun. injection Hrun as <-.
    split; [simpl; by rewrite Ht|]. by intros [].
  - intros Hp. rewrite Hp, orb_false_r in Hrun.
    destruct (last_ack 0 es) as [a|] eqn:Ha; [|done].
    injection Hrun as <-. simpl. rewrite Ho. split_and!; [done..|].
    by exists a.
  - intros r0 e r1 x Hstep Hx.
    destruct e as [mb' a|mb' res|q| |m| |]; simpl in Hstep.
    + destruct (pc r0) as [mb0 d0 w0| |mb0 p0 w0|x0|] eqn:E;
        try (injection Hstep as <-; left; congruence).
      case_decide; injection Hstep as <-; [|congruence].
      unfold request_handle_ack in Hx. rewrite E in Hx. done.
    + destruct (pc r0) as [mb0 d0 w0| |mb0 p0 w0|x0|] eqn:E;
        try (injection Hstep as <-; left; congruence).
      case_decide; injection Hstep as <-; [|congruence].
      unfold request_promise_pulse in Hx. rewrite E in Hx. done.
    + injection Hstep as <-. by left.
    + destruct (pc r0) as [mb0 d0 w0| |mb0 p0 w0|x0|] eqn:E; try done.
      * destruct (d0 || request_dc_is_pulsed w0 r0); [|done].
        injection Hstep as <-. unfold request_constructor_resume in Hx.
        destruct (request_dc_is_pulsed w0 r0) eqn:Hd; [|done].
        right. by exists mb0, d0, w0.
      * destruct (bool_decide (is_Some p0) || _); [|done].
        by injection Hstep as <-.
    + destruct (pc r0); try done. by injection Hstep as <-.
    + destruct (pc r0) eqn:E; try done. injection Hstep as <-. congruence.
    + destruct (pc r0); try done. by injection Hstep as <-.
Qed.


(** One step of the life of a request keeps [lifetime_inv]. *)
Lemma lifetime_step us e r r' :
  lifetime_inv us r → request_step e r = Done r' →
  lifetime_inv (us ++ updates_of [e]) r'.
Proof.
  unfold lifetime_inv. intros Hinv Hstep.
  destruct e as [mb' a|mb' res|q| |m| |]; simpl in Hstep; simpl updates_of;
    rewrite ?app_nil_r.
  - destruct (pc r) as [mb0 d0 w0| |mb0 p0 w0|x0|] eqn:E;
      try (injection Hstep as <-; by rewrite E).
    case_decide; injection Hstep as <-; [|by rewrite E].
    unfold request_handle_ack. rewrite E. done.
  - destruct (pc r) as [mb0 d0 w0| |mb0 p0 w0|x0|] eqn:E;
      try (injection Hstep as <-; by rewrite E).
    case_decide; injection Hstep as <-; [|by rewrite E].
    unfold request_promise_pulse. rewrite E. done.
  - injection Hstep as <-. done.
  - destruct (pc r) as [mb0 d0 w0| |mb0 p0 w0|x0|] eqn:E; try done.
    + destruct (d0 || request_dc_is_pulsed w0 r); [|done].
      injection Hstep as <-. unfold request_constructor_resume.
      destruct Hinv as (->&Hcs&Hi).
      destruct (request_dc_is_pulsed w0 r); simpl.
      * rewrite commits_sent_app, Hcs. done.
      * rewrite Hcs. done.
    + destruct (bool_decide (is_Some p0) || _); [|done].
      injection Hstep as <-. simpl. rewrite commits_sent_app. simpl.
      by rewrite app_nil_r.
  - destruct (pc r) as [mb0 d0 w0| |mb0 p0 w0|x0|] eqn:E; try done.
    injection Hstep as <-. simpl. rewrite commits_sent_app. simpl.
    destruct Hinv as (Hc&Hm&Hi). rewrite !fmap_app, Hc, Hm. simpl.
    split_and!; [done..|]. split; [done|]. by intros ?%app_nil_r_inv.
  - destruct (pc r) as [mb0 d0 w0| |mb0 p0 w0|x0|] eqn:E; try done.
    injection Hstep as <-. by rewrite E.
  - destruct (pc r) as [mb0 d0 w0| |mb0 p0 w0|x0|] eqn:E; try done.
    injection Hstep as <-. unfold request_destructor.
    destruct Hinv as (Hc&Hm&Hi).
    destruct (interest_acquired (object r)) eqn:Hia; simpl.
    + left. destruct Hi as [Hi _]. rewrite Hi in Hc, Hm |- * by done.
      split; [done|]. rewrite commits_sent_app. simpl.
      apply fmap_nil_inv in Hm. by rewrite Hm.
    + right. split_and!; [|done..]. intros Hus. destruct Hi as [_ Hi].
      by specialize (Hi Hus).
Qed.

Lemma lifetime_run es us r r' :
  lifetime_inv us r → request_run es r = Done r' →
  lifetime_inv (us ++ updates_of es) r'.
Proof.
  revert us r. induction es as [|e es IH]; intros us r Hinv; simpl.
  - intros [= <-]. by rewrite app_nil_r.
  - destruct (request_step e r) as [r1| |] eqn:E; [|done|done].
    intros Hrun. pose proof (lifetime_step us e r r1 Hinv E) as H1.
    specialize (IH _ _ H1 Hrun). rewrite <-app_assoc in IH.
    by rewrite <-updates_of_app in IH.
Qed.

(** C7, as the code has it.  Over the life of a request, from its
    construction to its destruction, every call of [update(m)] sends one
    Commit{true, m}, and the destructor sends one Commit{false, empty
    metadata, null result address} exactly if [update] was never called.  So
    the request never sends both kinds, never sends none, and sends exactly
    one Commit exactly if [update] was called at most once. *)
Theorem one_commit_per_update_or_abandon me lost target es r :
  request_run es (request_constructor_begin me lost target) = Done r →
  pc r = destroyed →
  let us := updates_of es in
  let cs := commits_sent (request_trace r) in
  (us = [] → cs = [mk_commit_msg false metadata_default nil_address]) ∧
  (us ≠ [] → commit <$> cs = (λ _, true) <$> us ∧ metadata <$> cs = us) ∧
  cs ≠ [] ∧
  (length cs = 1 ↔ length us ≤ 1) ∧
  ¬ (true ∈ commit <$> cs ∧ false ∈ commit <$> cs).
Proof.
  intros Hrun Hpc us cs.
  pose proof (lifetime_run es [] (request_constructor_begin me lost target) r)
    as Hinv.
  unfold lifetime_inv in Hinv at 2. rewrite Hpc in Hinv. simpl in Hinv.
  destruct Hinv as [[Hus Hcs]|(Hus&Hc&Hm)]; [done|done|..];
    fold us in Hus; fold cs in Hcs || fold cs in Hc, Hm.
  - rewrite Hus, Hcs. split_and!; try done.
    + simpl. split; lia.
    + intros [Ht _]. simpl in Ht. apply list_elem_of_singleton in Ht. done.
  - assert (length cs = length us) as Hlen.
    { by rewrite <-(length_fmap metadata cs), Hm. }
    split_and!; try done.
    + intros ->. by destruct us.
    + destruct us; [done|]. simpl in *. lia.
    + intros [_ Hf]. rewrite Hc in Hf.
      apply list_elem_of_fmap in Hf as (? & ? & _). done.
Qed.

(** ** Further properties of the handler *)

(** What one step appends to the trace, case by case. *)
Lemma step_shape e h h' :
  inv h → step e h = Done h' →
  (trace h' = trace h ∧ metadata_view h' = metadata_view h) ∨
  (∃ m, trace h' = trace h ++ [obs_join m] ∧
        metadata_view h' = semilattice_join (metadata_view h) m) ∨
  (∃ c ack, e = ev_schedule c ∧ tasks h !! c = Some (coro_spawned ack) ∧
        trace h' = trace h ++
          [obs_insert c;
           obs_send ack (msg_ack (mk_ack_msg (metadata_view h)
                                    (commit_mailbox_of h c)))] ∧
        metadata_view h' = metadata_view h) ∨
  (∃ c, trace h' = trace h ++ [obs_erase c] ∧
        metadata_view h' = metadata_view h) ∨
  (∃ c b to, e = ev_schedule c ∧
        tasks h !! c = Some (send_result_spawned b to) ∧
        trace h' = trace h ++ [obs_send to (msg_result (mk_result_msg b))] ∧
        metadata_view h' = metadata_view h).
Proof.
  intros Hinv. unfold step.
  destruct (phase h) eqn:Hp; [| |done];
    (destruct e as [msg|c msg|c|p|m| |];
     [ intros [= <-]; by left
     | destruct (tasks h !! c) as [[?|f|??]|] eqn:E; intros [= <-];
       [ by left
       | destruct (commit msg) eqn:Hc;
         [ destruct (invalid_condition f) eqn:Hf;
           [ destruct (handle_commit_reject_fields h c f msg Hinv E Hc Hf)
               as (Hv&Ht&_); by left
           | destruct (handle_commit_accept_fields h c f msg Hinv E Hc Hf)
               as (Hv&Ht&_); right; left; by exists (metadata msg) ]
         | rewrite (handle_commit_abandon h c f msg E Hc); by left ]
       | by left
       | by left ]
     | unfold schedule, remote_change_request_coro_resume;
       destruct (tasks h !! c) as [[ack|f|result to]|] eqn:E; [| | |done];
       [ intros [= <-]; right; right; left; exists c, ack;
         split_and!; [done|done|simpl; by rewrite <-app_assoc|done]
       | destruct (wait_any f h); [|done];
         destruct (commit_done f || _); [|done];
         intros [= <-]; right; right; right; left; by exists c
       | intros [= <-]; right; right; right; right; by exists c, result, to ]
     | intros [= <-]; by left
     | intros [= <-];
       destruct (update_fields m h) as (Hv&_&_&_&_&_&_&Ht);
       right; left; by exists m
     | first [done
             |unfold destructor_body; case_decide; [|done]; intros [= <-];
              by left]
     | first [done
             |unfold destructor_drained; destruct (drainer h); [|done];
              intros [= <-]; by left] ]).
Qed.

(** Between two states of a run the store is joined with the arguments of
    the [join] calls made in between, in order. *)
Lemma run_store es h h' :
  inv h → run es h = Done h' →
  ∃ delta, trace h' = trace h ++ delta ∧
           metadata_view h' = foldl semilattice_join (metadata_view h) (joins delta).
Proof.
  revert h. induction es as [|e es IH]; intros h Hinv; simpl.
  - intros [= <-]. exists []. by rewrite app_nil_r.
  - destruct (step e h) as [h1| |] eqn:E; [|done|done].
    intros Hrun.
    destruct (IH h1 (inv_step e h h1 Hinv E) Hrun) as (d2 & Hd2 & Hv2).
    destruct (step_shape e h h1 Hinv E)
      as [[Ht Hv]|[(m&Ht&Hv)|[(c&ack&_&_&Ht&Hv)|[(c&Ht&Hv)|(c&b&to&_&_&Ht&Hv)]]]].
    + exists d2. rewrite Hd2, Hv2, Ht, Hv. done.
    + exists (obs_join m :: d2). rewrite Hd2, Hv2, Ht, Hv, <-app_assoc. done.
    + eexists (_ :: _ :: d2). rewrite Hd2, Hv2, Ht, Hv, <-app_assoc. done.
    + exists (obs_erase c :: d2). rewrite Hd2, Hv2, Ht, Hv, <-app_assoc. done.
    + eexists (_ :: d2). rewrite Hd2, Hv2, Ht, Hv, <-app_assoc. done.
Qed.

(** The calls of [join] a step makes are the ones the event is to write. *)
Lemma step_writes e h h' :
  inv h → step e h = Done h' →
  joins (trace h') = joins (trace h) ++ written e h.
Proof.
  intros Hinv. unfold step.
  destruct (phase h) eqn:Hp; [| |done];
    (destruct e as [msg|c msg|c|p|m| |]; cbn [written];
     [ intros [= <-]; by rewrite app_nil_r
     | unfold accepted;
       destruct (tasks h !! c) as [[?|f|??]|] eqn:E; intros [= <-];
       [ by rewrite app_nil_r
       | destruct (commit msg) eqn:Hc;
         [ destruct (invalid_condition f) eqn:Hf;
           [ destruct (handle_commit_reject_fields h c f msg Hinv E Hc Hf)
               as (_&Ht&_); cbn [andb negb]; by rewrite Ht, app_nil_r
           | destruct (handle_commit_accept_fields h c f msg Hinv E Hc Hf)
               as (_&Ht&_); cbn [andb negb]; by rewrite Ht, joins_app ]
         | rewrite (handle_commit_abandon h c f msg E Hc); cbn [andb];
           by rewrite app_nil_r ]
       | by rewrite app_nil_r
       | by rewrite app_nil_r ]
     | unfold schedule, remote_change_request_coro_resume;
       destruct (tasks h !! c) as [[ack|f|result to]|] eqn:E; [| | |done];
       [ intros [= <-];
         simpl; by rewrite <-app_assoc, joins_app
       | destruct (wait_any f h); [|done];
         destruct (commit_done f || _); [|done];
         intros [= <-]; simpl; by rewrite joins_app
       | intros [= <-]; simpl; by rewrite joins_app ]
     | intros [= <-]; by rewrite app_nil_r
     | intros [= <-];
       destruct (update_fields m h) as (_&_&_&_&_&_&_&Ht);
       by rewrite Ht, joins_app
     | first [done
             |unfold destructor_body; case_decide; [|done]; intros [= <-];
              by rewrite app_nil_r]
     | first [done
             |unfold destructor_drained; destruct (drainer h); [|done];
              intros [= <-]; by rewrite app_nil_r] ]).
Qed.

Lemma run_writes es h h' :
  inv h → run es h = Done h' →
  joins (trace h') = joins (trace h) ++ writes es h.
Proof.
  revert h. induction es as [|e es IH]; intros h Hinv; simpl.
  - intros [= <-]. by rewrite app_nil_r.
  - destruct (step e h) as [h1| |] eqn:E; [|done|done].
    intros Hrun.
    rewrite (IH h1 (inv_step e h h1 Hinv E) Hrun).
    by rewrite (step_writes e h h1 Hinv E), <-app_assoc.
Qed.

(** X1.  Who writes the store.  After any run, the store of a handler is
    the value it was created with, joined in order with the arguments of the
    [join] calls made since; and these calls are, in the order of the events
    of the run, exactly one for each [update] of the owner and one for each
    accepted Commit, with its metadata.  A Request, the scheduling of a
    session or of a [send_result], a disconnect, a Commit{false}, a refused
    Commit, a Commit for a session that is not waiting, and the destructor
    write nothing. *)
Theorem store_is_join_of_updates me (m : metadata_t) es h :
  run es (new_handler me m) = Done h →
  joins (trace h) = writes es (new_handler me m) ∧
  metadata_view h = foldl semilattice_join m (writes es (new_handler me m)).
Proof.
  intros Hrun.
  destruct (run_store es _ h (inv_new me m) Hrun) as (delta & Ht & Hv).
  pose proof (run_writes es _ h (inv_new me m) Hrun) as Hw.
  simpl in Ht, Hw. split; [done|].
  by rewrite Hv, <-Hw, Ht.
Qed.

(** One step keeps: the store is the fold of the joins of the trace, and
    every Ack of the trace carries the fold of the joins before it. *)
Lemma step_acks (m0 : metadata_t) e h h' :
  inv h → step e h = Done h' →
  metadata_view h = foldl semilattice_join m0 (joins (trace h)) →
  (∀ i to a, trace h !! i = Some (obs_send to (msg_ack a)) →
     ack_metadata a = foldl semilattice_join m0 (joins (take i (trace h)))) →
  metadata_view h' = foldl semilattice_join m0 (joins (trace h')) ∧
  (∀ i to a, trace h' !! i = Some (obs_send to (msg_ack a)) →
     ack_metadata a = foldl semilattice_join m0 (joins (take i (trace h')))).
Proof.
  intros Hinv Hstep Hv0 Hacks.
  assert (∀ delta,
    trace h' = trace h ++ delta →
    (∀ k to a, delta !! k = Some (obs_send to (msg_ack a)) →
       ack_metadata a = metadata_view h ∧ joins (take k delta) = []) →
    ∀ i to a, trace h' !! i = Some (obs_send to (msg_ack a)) →
      ack_metadata a = foldl semilattice_join m0 (joins (take i (trace h'))))
    as Hold.
  { intros delta Ht Hd i to a. rewrite Ht.
    intros [Hi|[Hge Hi]]%lookup_app_Some.
    - rewrite take_app_le by (apply lookup_lt_Some in Hi; lia). by eapply Hacks.
    - destruct (Hd _ _ _ Hi) as [-> Hj].
      rewrite take_app_ge by done. rewrite joins_app, Hj, app_nil_r. done. }
  destruct (step_shape e h h' Hinv Hstep)
    as [[Ht Hv]|[(m&Ht&Hv)|[(c&ack&_&_&Ht&Hv)|[(c&Ht&Hv)|(c&b&to&_&_&Ht&Hv)]]]].
  - split; [by rewrite Hv, Ht|]. apply (Hold []); [by rewrite app_nil_r|].
    intros k ??. by rewrite lookup_nil.
  - split; [rewrite Hv, Ht, joins_app, foldl_app, <-Hv0; done|].
    apply (Hold [obs_join m]); [done|]. by intros [|[|k]] ??.
  - split; [rewrite Hv, Ht, joins_app, foldl_app, <-Hv0; done|].
    eapply Hold; [done|]. intros [|[|k]] ?? Hk; simpl in Hk; [done| |done].
    by injection Hk as <- <-.
  - split; [rewrite Hv, Ht, joins_app, foldl_app, <-Hv0; done|].
    apply (Hold [obs_erase c]); [done|]. by intros [|[|k]] ??.
  - split; [rewrite Hv, Ht, joins_app, foldl_app, <-Hv0; done|].
    eapply Hold; [done|]. by intros [|[|k]] ??.
Qed.

(** X2.  Every Ack carries the current store: the snapshot of an Ack in the
    trace of a handler is the value the handler was created with, joined
    with the arguments of the [join] calls made before the Ack was sent. *)
Theorem ack_snapshot_is_current_store me (m : metadata_t) es h i to a :
  run es (new_handler me m) = Done h →
  trace h !! i = Some (obs_send to (msg_ack a)) →
  ack_metadata a = foldl semilattice_join m (joins (take i (trace h))).
Proof.
  intros Hrun.
  assert (∀ h0,
    inv h0 →
    metadata_view h0 = foldl semilattice_join m (joins (trace h0)) →
    (∀ i to a, trace h0 !! i = Some (obs_send to (msg_ack a)) →
       ack_metadata a = foldl semilattice_join m (joins (take i (trace h0)))) →
    run es h0 = Done h →
    ∀ i to a, trace h !! i = Some (obs_send to (msg_ack a)) →
      ack_metadata a = foldl semilattice_join m (joins (take i (trace h))))
    as Hgen.
  { clear. induction es as [|e es IH]; intros h0 Hinv Hv Hacks; simpl.
    - by intros [= <-].
    - destruct (step e h0) as [h1| |] eqn:E; [|done|done].
      destruct (step_acks m e h0 h1 Hinv E Hv Hacks) as [Hv1 Hacks1].
      apply IH; [by eapply inv_step|done|done]. }
  apply (Hgen (new_handler me m)); [apply inv_new|done| |done].
  intros ???. simpl. by rewrite lookup_nil.
Qed.

Lemma coro_begin_fields c ack h :
  let h' := remote_change_request_coro_begin c ack h in
  trace h' = trace h ++
    [obs_insert c;
     obs_send ack (msg_ack (mk_ack_msg (metadata_view h) (commit_mailbox_of h c)))] ∧
  metadata_view h' = metadata_view h ∧ next_coro h' = next_coro h ∧
  tasks h' !! c = Some (coro_waiting (mk_frame ack false false)).
Proof.
  simpl. rewrite <-app_assoc, lookup_insert_eq. done.
Qed.

(** X3.  An update that comes before the session has started does not
    invalidate it.  A session that has been spawned for a Request, but whose
    coroutine has not run yet, has no flag in the registry: when the owner
    updates the store first, the session then starts, acks with the updated
    store as its snapshot, and its Commit{true} is accepted. *)
Theorem update_before_session_start h c ack m msg :
  reachable h → tasks h !! c = Some (coro_spawned ack) → commit msg = true →
  ∃ h',
    run [ev_update m; ev_schedule c; ev_commit c msg] h = Done h' ∧
    trace h' = trace h ++
      [obs_join m; obs_insert c;
       obs_send ack
         (msg_ack (mk_ack_msg (semilattice_join (metadata_view h) m)
                     (commit_mailbox_of h c)));
       obs_join (metadata msg)] ∧
    metadata_view h' =
      semilattice_join (semilattice_join (metadata_view h) m) (metadata msg) ∧
    tasks h' !! next_coro h =
      Some (send_result_spawned true (result_mailbox msg)).
Proof.
  intros Hreach E Hc.
  pose proof (reachable_inv h Hreach) as Hinv.
  pose proof (reachable_not_released h c _ Hreach E) as Hp.
  destruct (update_fields m h) as (Hv&Hr&_&Hn&_&Hph&Hm&Ht).
  assert (tasks (update m h) !! c = Some (coro_spawned ack)) as E1.
  { rewrite update_tasks, E. by case_decide. }
  assert (step (ev_update m) h = Done (update m h)) as S1.
  { unfold step. by destruct (phase h). }
  set (h2 := remote_change_request_coro_begin c ack (update m h)).
  assert (step (ev_schedule c) (update m h) = Done h2) as S2.
  { unfold step, schedule. rewrite E1, Hph. by destruct (phase h). }
  assert (reachable h2) as Hreach2.
  { eapply reachable_step; [|exact S2]. by eapply reachable_step. }
  destruct (coro_begin_fields c ack (update m h)) as (Ht2&Hv2&Hn2&E2).
  fold h2 in Ht2, Hv2, Hn2, E2.
  pose proof (reachable_not_released h2 c _ Hreach2 E2) as Hp2.
  destruct (handle_commit_accept_fields h2 c _ msg (reachable_inv _ Hreach2)
              E2 Hc eq_refl) as (Hv3&Ht3&_&_&Hnew).
  exists (handle_commit c msg h2). split_and!.
  - simpl. rewrite S1, S2.
    by rewrite (step_commit_waiting h2 c _ msg Hp2 E2).
  - rewrite Ht3, Ht2. unfold commit_mailbox_of.
    rewrite Hv, Hm, Ht, <-!app_assoc. done.
  - by rewrite Hv3, Hv2, Hv.
  - rewrite Hn2, Hn in Hnew. exact Hnew.
Qed.

(** X4.  The first committer wins.  Of two sessions waiting at the same
    time, the one whose Commit{true} is handled first, its flag being unset,
    is accepted, and its merge sets the flag of the other: the Commit{true}
    of the other is then rejected.  The store is joined with the first
    metadata only, and the two Results spawned are true and false. *)
Theorem first_committer_wins h c1 c2 f1 f2 msg1 msg2 :
  reachable h → c1 ≠ c2 →
  tasks h !! c1 = Some (coro_waiting f1) →
  tasks h !! c2 = Some (coro_waiting f2) →
  invalid_condition f1 = false →
  commit msg1 = true → commit msg2 = true →
  ∃ h',
    run [ev_commit c1 msg1; ev_commit c2 msg2] h = Done h' ∧
    metadata_view h' = semilattice_join (metadata_view h) (metadata msg1) ∧
    trace h' = trace h ++ [obs_join (metadata msg1)] ∧
    tasks h' !! next_coro h =
      Some (send_result_spawned true (result_mailbox msg1)) ∧
    tasks h' !! S (next_coro h) =
      Some (send_result_spawned false (result_mailbox msg2)).
Proof.
  intros Hreach Hne E1 E2 Hf1 Hc1 Hc2.
  pose proof (reachable_inv h Hreach) as Hinv.
  pose proof (reachable_not_released h c1 _ Hreach E1) as Hp.
  pose proof (step_commit_waiting h c1 f1 msg1 Hp E1) as S1.
  set (h1 := handle_commit c1 msg1 h) in *.
  pose proof (reachable_step _ _ _ Hreach S1) as Hreach1.
  pose proof (reachable_inv h1 Hreach1) as Hinv1.
  destruct (handle_commit_accept_fields h c1 f1 msg1 Hinv E1 Hc1 Hf1)
    as (Hv1&Ht1&_&_&Hnew1). fold h1 in Hv1, Ht1, Hnew1.
  destruct (inv_waiting h c2 f2 Hinv E2) as (Hin2&Hlt2&_).
  pose proof (inv_live h c1 _ Hinv E1) as Hlt1.
  destruct (update_fields (metadata msg1) h) as (_&_&_&Hn&_).
  assert (next_coro h1 = S (next_coro h)) as Hn1.
  { unfold h1. rewrite (handle_commit_accept h c1 f1 msg1 Hinv E1 Hc1 Hf1).
    unfold spawn_sometime, acquire_lock.
    cbn [next_coro set_tasks set_next_coro set_drainer]. by rewrite Hn. }
  assert (tasks h1 !! c2 =
          Some (coro_waiting (mk_frame (frame_ack_mailbox f2) true (commit_done f2))))
    as E2'.
  { unfold h1. rewrite (handle_commit_accept h c1 f1 msg1 Hinv E1 Hc1 Hf1).
    unfold spawn_sometime, acquire_lock.
    cbn [tasks next_coro set_tasks set_next_coro set_drainer].
    rewrite lookup_insert_ne by done. rewrite Hn, lookup_insert_ne by lia.
    rewrite update_tasks, decide_True by done. by rewrite E2. }
  clearbody h1.
  pose proof (reachable_not_released h1 c2 _ Hreach1 E2') as Hp1.
  destruct (handle_commit_reject_fields h1 c2 _ msg2 Hinv1 E2' Hc2 eq_refl)
    as (Hv2&Ht2&_&_&Hnew2).
  exists (handle_commit c2 msg2 h1). split_and!.
  - simpl. rewrite S1. by rewrite (step_commit_waiting h1 c2 _ msg2 Hp1 E2').
  - by rewrite Hv2.
  - by rewrite Ht2.
  - rewrite (handle_commit_reject h1 c2 _ msg2 Hinv1 E2' Hc2 eq_refl).
    simpl. rewrite lookup_insert_ne by lia.
    rewrite Hn1, lookup_insert_ne by lia. exact Hnew1.
  - by rewrite <-Hn1.
Qed.

(** ** Where the messages of the handler come from *)

Lemma step_cases e h h' :
  step e h = Done h' →
  match e with
  | ev_request msg => h' = remote_change_request msg h
  | ev_commit c msg =>
      h' = match tasks h !! c with
           | Some (coro_waiting _) => handle_commit c msg h
           | _ => h
           end
  | ev_schedule c => schedule c h = Done h'
  | ev_disconnect p => h' = set_disconnected ({[p]} ∪ disconnected h) h
  | ev_update m => h' = update m h
  | ev_destroy => h' = set_phase draining h
  | ev_drained => h' = set_phase released h
  end.
Proof.
  unfold step.
  destruct (phase h) eqn:Hp; [| |done];
    (destruct e as [msg|c msg|c|p|m| |];
     [ by intros [= <-]
     | destruct (tasks h !! c) as [[?|f|??]|]; by intros [= <-]
     | done
     | by intros [= <-]
     | by intros [= <-]
     | first [done|unfold destructor_body; case_decide; [|done]; by intros [= <-]]
     | first [done|unfold destructor_drained; destruct (drainer h); [|done];
              by intros [= <-]] ]).
Qed.

Lemma pulsed_task_same (t : task) :
  ack_address_of (pulsed_task t) = ack_address_of t ∧
  result_of (pulsed_task t) = result_of t.
Proof. by destruct t. Qed.

(** A task after a step is a task from before, or the session spawned for a
    Request, or the [send_result] spawned for a Commit{true}. *)
Lemma step_tasks e h h' c (t : task) :
  inv h → step e h = Done h' → tasks h' !! c = Some t →
  (∃ t0 : task, tasks h !! c = Some t0 ∧
         ack_address_of t0 = ack_address_of t ∧ result_of t0 = result_of t) ∨
  (∃ msg, e = ev_request msg ∧ t = coro_spawned (ack_mailbox msg)) ∨
  (∃ c0 msg f, e = ev_commit c0 msg ∧ commit msg = true ∧
     tasks h !! c0 = Some (coro_waiting f) ∧
     t = send_result_spawned (negb (invalid_condition f)) (result_mailbox msg) ∧
     (invalid_condition f = false →
      trace h' = trace h ++ [obs_join (metadata msg)])).
Proof.
  intros Hinv Hstep. apply step_cases in Hstep.
  destruct e as [msg|c0 msg|c0|p|m| |].
  - subst h'. simpl. destruct (decide (c = next_coro h)) as [->|Hne].
    + rewrite lookup_insert_eq. intros [= <-]. right; left. by exists msg.
    + rewrite lookup_insert_ne by done. intros Hc. left. by exists t.
  - destruct (tasks h !! c0) as [[?|f|??]|] eqn:E;
      try (subst h'; intros Hc; left; by exists t).
    pose proof (inv_live h c0 _ Hinv E) as Hlt.
    destruct (commit msg) eqn:Hc.
    + destruct (invalid_condition f) eqn:Hf.
      * rewrite (handle_commit_reject h c0 f msg Hinv E Hc Hf) in Hstep.
        subst h'. simpl.
        destruct (decide (c = c0)) as [->|Hne].
        { rewrite lookup_insert_eq. intros [= <-]. left. exists (coro_waiting f).
          done. }
        rewrite lookup_insert_ne by done.
        destruct (decide (c = next_coro h)) as [->|Hne'].
        { rewrite lookup_insert_eq. intros [= <-]. right; right.
          exists c0, msg, f. rewrite Hf. done. }
        rewrite lookup_insert_ne by done. intros Ht. left. by exists t.
      * destruct (handle_commit_accept_fields h c0 f msg Hinv E Hc Hf)
          as (_&Htr&_).
        rewrite (handle_commit_accept h c0 f msg Hinv E Hc Hf) in Hstep, Htr.
        subst h'.
        destruct (update_fields (metadata msg) h) as (_&_&_&Hn&_).
        unfold spawn_sometime, acquire_lock.
        cbn [tasks next_coro set_tasks set_next_coro set_drainer].
        rewrite Hn.
        destruct (decide (c = c0)) as [->|Hne].
        { rewrite lookup_insert_eq. intros [= <-]. left. exists (coro_waiting f).
          done. }
        rewrite lookup_insert_ne by done.
        destruct (decide (c = next_coro h)) as [->|Hne'].
        { rewrite lookup_insert_eq. intros [= <-]. right; right.
          exists c0, msg, f. rewrite Hf. done. }
        rewrite lookup_insert_ne by done. rewrite update_tasks.
        case_decide; [|intros Ht; left; by exists t].
        destruct (tasks h !! c) as [t0|] eqn:E0; [|done].
        simpl. intros [= <-]. left. exists t0.
        destruct (pulsed_task_same t0) as [-> ->]. done.
    + rewrite (handle_commit_abandon h c0 f msg E Hc) in Hstep. subst h'. simpl.
      destruct (decide (c = c0)) as [->|Hne].
      * rewrite lookup_insert_eq. intros [= <-]. left. by exists (coro_waiting f).
      * rewrite lookup_insert_ne by done. intros Ht. left. by exists t.
  - unfold schedule, remote_change_request_coro_resume in Hstep.
    destruct (tasks h !! c0) as [[ack|f|result to]|] eqn:E; [| | |done].
    + injection Hstep as <-. simpl.
      destruct (decide (c = c0)) as [->|Hne].
      * rewrite lookup_insert_eq. intros [= <-]. left. by exists (coro_spawned ack).
      * rewrite lookup_insert_ne by done. intros Ht. left. by exists t.
    + destruct (wait_any f h); [|done].
      destruct (commit_done f || _); [|done].
      injection Hstep as <-. simpl.
      destruct (decide (c = c0)) as [->|Hne].
      * by rewrite lookup_delete_eq.
      * rewrite lookup_delete_ne by done. intros Ht. left. by exists t.
    + injection Hstep as <-. simpl.
      destruct (decide (c = c0)) as [->|Hne].
      * by rewrite lookup_delete_eq.
      * rewrite lookup_delete_ne by done. intros Ht. left. by exists t.
  - subst h'. intros Ht. left. by exists t.
  - subst h'. rewrite update_tasks.
    case_decide; [|intros Ht; left; by exists t].
    destruct (tasks h !! c) as [t0|] eqn:E0; [|done].
    simpl. intros [= <-]. left. exists t0.
    destruct (pulsed_task_same t0) as [-> ->]. done.
  - subst h'. intros Ht. left. by exists t.
  - subst h'. intros Ht. left. by exists t.
Qed.

Lemma step_joins_mono e h h' (m : metadata_t) :
  inv h → step e h = Done h' →
  m ∈ joins (trace h) → m ∈ joins (trace h').
Proof.
  intros Hinv Hstep Hm.
  destruct (step_effect e h h' Hinv Hstep) as (delta & -> & _).
  rewrite joins_app, elem_of_app. by left.
Qed.

Lemma answers_step seen e h h' b to :
  inv h → step e h = Done h' →
  answers seen h b to → answers (seen ++ [e]) h' b to.
Proof.
  intros Hinv Hstep (c & msg & Hin & Hc & Hto & Hb).
  exists c, msg. split_and!; [|done|done|].
  - rewrite elem_of_app. by left.
  - intros Htrue. by eapply step_joins_mono; [| |apply Hb].
Qed.

Lemma provenance_step seen e h h' :
  inv h → provenance seen h → step e h = Done h' →
  provenance (seen ++ [e]) h'.
Proof.
  intros Hinv (P1 & P2 & P3) Hstep. split_and!.
  - intros c x a Hx Ha.
    destruct (step_tasks e h h' c x Hinv Hstep Hx)
      as [(x0&Hx0&Hack&_)|[(msg&->&->)|(c0&msg&f&_&_&_&->&_)]].
    + rewrite elem_of_app. left. apply (P1 c x0 a Hx0). congruence.
    + simpl in Ha. injection Ha as <-. rewrite elem_of_app. right.
      destruct msg. apply list_elem_of_singleton. done.
    + done.
  - intros c x b to Hx Hb.
    destruct (step_tasks e h h' c x Hinv Hstep Hx)
      as [(x0&Hx0&_&Hres)|[(msg&->&->)|(c0&msg&f&->&Hc&_&->&Htr)]].
    + eapply answers_step; [done..|]. apply (P2 c x0 b to Hx0). congruence.
    + done.
    + simpl in Hb. injection Hb as <- <-.
      exists c0, msg. split_and!; [|done|done|].
      * rewrite elem_of_app. right. by apply list_elem_of_singleton.
      * intros Hn. rewrite Htr by (by destruct (invalid_condition f)).
        rewrite joins_app, elem_of_app. right. simpl.
        by apply list_elem_of_singleton.
  - assert (∀ to msg, obs_send to msg ∈ trace h →
      match msg with
      | msg_ack _ => ev_request (mk_request_msg to) ∈ seen ++ [e]
      | msg_result r => answers (seen ++ [e]) h' (value r) to
      | _ => False
      end) as Hold.
    { intros to msg Hin. specialize (P3 to msg Hin).
      destruct msg as [?|?|?|r]; [done| |done|].
      - rewrite elem_of_app. by left.
      - by eapply answers_step. }
    intros to msg.
    destruct (step_shape e h h' Hinv Hstep)
      as [[Ht Hv]|[(m&Ht&Hv)|[(c&ack&_&Hc&Ht&Hv)|[(c&Ht&Hv)|(c&b&to'&_&Hc&Ht&Hv)]]]];
      rewrite Ht.
    + apply Hold.
    + rewrite elem_of_app, list_elem_of_singleton.
      intros [Hin|Hin]; [by apply Hold|done].
    + rewrite elem_of_app, !elem_of_cons, elem_of_nil.
      intros [Hin|[Hin|[Hin|[]]]]; [by apply Hold|done|].
      injection Hin as -> ->. rewrite elem_of_app. left.
      by apply (P1 c (coro_spawned ack) ack Hc).
    + rewrite elem_of_app, list_elem_of_singleton.
      intros [Hin|Hin]; [by apply Hold|done].
    + rewrite elem_of_app, list_elem_of_singleton.
      intros [Hin|Hin]; [by apply Hold|].
      injection Hin as -> ->. simpl.
      eapply answers_step; [done..|].
      by apply (P2 c (send_result_spawned b to') b to' Hc).
Qed.

Lemma provenance_run es me (m : metadata_t) h :
  run es (new_handler me m) = Done h → provenance es h.
Proof.
  assert (∀ es seen h0, inv h0 → provenance seen h0 →
            run es h0 = Done h → provenance (seen ++ es) h) as Hgen.
  { clear. intros es. induction es as [|e es IH]; intros seen h0 Hinv Hp; simpl.
    - intros [= <-]. by rewrite app_nil_r.
    - destruct (step e h0) as [h1| |] eqn:E; [|done|done].
      intros Hrun.
      replace (seen ++ e :: es) with ((seen ++ [e]) ++ es)
        by (by rewrite <-app_assoc).
      apply (IH _ h1); [by eapply inv_step|by eapply provenance_step|done]. }
  intros Hrun. apply (Hgen es [] (new_handler me m)); [apply inv_new| |done].
  split_and!.
  - intros c x a. simpl. by rewrite lookup_empty.
  - intros c x b to. simpl. by rewrite lookup_empty.
  - intros to msg. simpl. by intros ?%elem_of_nil.
Qed.

(** X5.  The handler sends nothing but Acks and Results, and it acks only
    who asked: every Ack in the trace of a handler was sent to the ack
    mailbox named in a Request that the handler had received. *)
Theorem acks_answer_requests me (m : metadata_t) es h to msg :
  run es (new_handler me m) = Done h →
  obs_send to msg ∈ trace h →
  (∃ a, msg = msg_ack a ∧ ev_request (mk_request_msg to) ∈ es) ∨
  (∃ r : result_msg_t, msg = msg_result r).
Proof.
  intros Hrun Hin. destruct (provenance_run es me m h Hrun) as (_&_&P3).
  specialize (P3 to msg Hin).
  destruct msg as [?|a|?|r]; [done| |done|].
  - left. by exists a.
  - right. by exists r.
Qed.

(** X6.  A Result answers a Commit{true}, and success means merged: every
    Result in the trace of a handler was sent to the result mailbox named in
    a Commit{commit=true} that the handler had received, never to the null
    address of an abandoning Commit{false}; and if the Result says true, the
    metadata of that Commit is among the arguments of the [join] calls. *)
Theorem results_answer_commits me (m : metadata_t) es h to
    (r : result_msg_t) :
  run es (new_handler me m) = Done h →
  obs_send to (msg_result r) ∈ trace h →
  ∃ c msg, ev_commit c msg ∈ es ∧ commit msg = true ∧
           result_mailbox msg = to ∧
           (value r = true → metadata msg ∈ joins (trace h)).
Proof.
  intros Hrun Hin. destruct (provenance_run es me m h Hrun) as (_&_&P3).
  exact (P3 to (msg_result r) Hin).
Qed.

(** ** Further properties of the request object *)

Lemma constructed_step e r r' :
  is_constructed r → request_step e r = Done r' →
  is_constructed r' ∧ remote_metadata (object r') = remote_metadata (object r) ∧
  commit_mailbox_address (object r') = commit_mailbox_address (object r).
Proof.
  unfold is_constructed. intros Hc Hstep.
  destruct e as [mb' a|mb' res|q| |m| |]; simpl in Hstep.
  - destruct (pc r) as [mb0 d0 w0| |mb0 p0 w0|x0|] eqn:E; try done;
      injection Hstep as <-; by rewrite E.
  - destruct (pc r) as [mb0 d0 w0| |mb0 p0 w0|x0|] eqn:E; try done;
      try (injection Hstep as <-; by rewrite E).
    case_decide; injection Hstep as <-; [|by rewrite E].
    unfold request_promise_pulse. by rewrite E.
  - injection Hstep as <-. done.
  - destruct (pc r) as [mb0 d0 w0| |mb0 p0 w0|x0|] eqn:E; try done.
    destruct (bool_decide (is_Some p0) || _); [|done].
    by injection Hstep as <-.
  - destruct (pc r) as [mb0 d0 w0| |mb0 p0 w0|x0|] eqn:E; try done.
    by injection Hstep as <-.
  - destruct (pc r) as [mb0 d0 w0| |mb0 p0 w0|x0|] eqn:E; try done.
    injection Hstep as <-. by rewrite E.
  - destruct (pc r) as [mb0 d0 w0| |mb0 p0 w0|x0|] eqn:E; try done.
    injection Hstep as <-. unfold request_destructor.
    by destruct (interest_acquired (object r)).
Qed.

(** X7.  The snapshot is taken once.  From the moment the object is
    constructed, [get()] returns the same snapshot and the object keeps the
    same commit address, whatever happens to it: calls of [update], Results,
    disconnects, even a late Ack.  An accepted commit does not refresh the
    snapshot. *)
Theorem snapshot_is_stable r es r' :
  pc r = constructed → request_run es r = Done r' →
  request_get r' = request_get r ∧
  commit_mailbox_address (object r') = commit_mailbox_address (object r).
Proof.
  intros Hpc.
  assert (is_constructed r) as Hc by (unfold is_constructed; by rewrite Hpc).
  clear Hpc. revert r Hc. unfold request_get.
  induction es as [|e es IH]; intros r Hc; simpl.
  - by intros [= <-].
  - destruct (request_step e r) as [r1| |] eqn:E; [|done|done].
    intros Hrun.
    destruct (constructed_step e r r1 Hc E) as (Hc1&Hm&Ha).
    destruct (IH r1 Hc1 Hrun) as [H1 H2]. split; congruence.
Qed.

Lemma sends_step me target e r r' :
  sends_inv me target r → request_step e r = Done r' → sends_inv me target r'.
Proof.
  intros Hinv0 Hstep. pose proof Hinv0 as (Hme & rest & Ht & Hsends).
  assert (∀ r1 extra,
    request_manager r1 = me →
    request_trace r1 = request_trace r ++ extra →
    (is_constructed r → is_constructed r1) →
    commit_mailbox_address (object r1) = commit_mailbox_address (object r) ∨
      (∀ to msg, robs_send to msg ∉ rest) →
    (∀ to msg, robs_send to msg ∈ extra →
       is_constructed r1 ∧ commit_well_formed me r1 to msg) →
    sends_inv me target r1) as Hkeep.
  { intros r1 extra Hme1 Ht1 Hc1 Haddr Hextra. split; [done|].
    exists (rest ++ extra). split; [by rewrite Ht1, Ht|].
    intros to msg [Hin|Hin]%elem_of_app; [|by apply Hextra].
    destruct Haddr as [Haddr|Hnone]; [|by destruct (Hnone to msg)].
    destruct (Hsends to msg Hin) as (Hc & c & -> & -> & Hwf).
    split; [by apply Hc1|]. exists c. by rewrite Haddr. }
  assert (∀ to msg, robs_send to msg ∉ ([] : list (request_obs metadata_t)))
    as Hnil by (intros ?? ?%elem_of_nil; done).
  unfold is_constructed in *.
  destruct e as [mb' a|mb' res|q| |m| |]; simpl in Hstep.
  - destruct (pc r) as [mb0 d0 w0| |mb0 p0 w0|x0|] eqn:E;
      try (injection Hstep as <-; exact Hinv0).
    case_decide; injection Hstep as <-.
    + apply (Hkeep _ []).
      * unfold request_handle_ack. by rewrite E.
      * unfold request_handle_ack. rewrite E. simpl. by rewrite app_nil_r.
      * done.
      * right. intros to msg Hin. destruct (Hsends to msg Hin) as [Hc _].
        done.
      * intros to msg Hin; by destruct (Hnil _ _ Hin).
    + exact Hinv0.
  - assert (request_manager r' = me ∧ request_trace r' = request_trace r ∧
            pc r' = match pc r with
                    | in_update mb0 p0 w0 =>
                        if decide (mb' = mb0) then in_update mb0 (Some res) w0
                        else pc r
                    | _ => pc r
                    end ∧ object r' = object r) as (Hm1 & Ht1 & Hp1 & Ho1).
    { destruct (pc r) as [mb0 d0 w0| |mb0 p0 w0|x0|] eqn:E;
        try (injection Hstep as <-; by rewrite ?E).
      case_decide; injection Hstep as <-; [|by rewrite E].
      unfold request_promise_pulse. rewrite E. done. }
    apply (Hkeep r' []); [done|by rewrite app_nil_r| |left; by rewrite Ho1
                         |intros to msg Hin; by destruct (Hnil _ _ Hin)].
    rewrite Hp1. destruct (pc r) as [mb0 d0 w0| |mb0 p0 w0|x0|]; try done.
    by case_decide.
  - injection Hstep as <-.
    apply (Hkeep _ []); [done|by simpl; rewrite app_nil_r|done|by left
                        |intros to msg Hin; by destruct (Hnil _ _ Hin)].
  - destruct (pc r) as [mb0 d0 w0| |mb0 p0 w0|x0|] eqn:E; try done.
    + destruct (d0 || request_dc_is_pulsed w0 r); [|done].
      injection Hstep as <-. unfold request_constructor_resume.
      destruct (request_dc_is_pulsed w0 r).
      * apply (Hkeep _ [robs_throw resource_lost_exc_t]);
          [done|done|done| |].
        -- right. intros to msg Hin. destruct (Hsends to msg Hin) as [Hc _].
           done.
        -- intros to msg Hin. apply list_elem_of_singleton in Hin. done.
      * apply (Hkeep _ []); [done|by simpl; rewrite app_nil_r|done| |].
        -- right. intros to msg Hin. destruct (Hsends to msg Hin) as [Hc _].
           done.
        -- intros to msg Hin; by destruct (Hnil _ _ Hin).
    + destruct (bool_decide (is_Some p0) || _); [|done].
      injection Hstep as <-.
      apply (Hkeep _ [robs_return (request_update_result p0)]);
        [done|done|done|by left|].
      intros to msg Hin. apply list_elem_of_singleton in Hin. done.
  - destruct (pc r) as [mb0 d0 w0| |mb0 p0 w0|x0|] eqn:E; try done.
    injection Hstep as <-.
    apply (Hkeep _ [robs_send (commit_mailbox_address (object r))
                      (msg_commit (mk_commit_msg true m
                         (mk_address (request_manager r) (next_mailbox r))))]);
      [done|done|done|by left|].
    intros to msg Hin. apply list_elem_of_singleton in Hin.
    injection Hin as -> ->. split; [done|].
    eexists. split_and!; [done|done|]. simpl. done.
  - destruct (pc r) as [mb0 d0 w0| |mb0 p0 w0|x0|] eqn:E; try done.
    injection Hstep as <-. exact Hinv0.
  - destruct (pc r) as [mb0 d0 w0| |mb0 p0 w0|x0|] eqn:E; try done.
    injection Hstep as <-. unfold request_destructor.
    destruct (interest_acquired (object r)).
    + apply (Hkeep _ [robs_send (commit_mailbox_address (object r))
                        (msg_commit (mk_commit_msg false metadata_default
                                       nil_address))]);
        [done|done|done|by left|].
      intros to msg Hin. apply list_elem_of_singleton in Hin.
      injection Hin as -> ->. split; [done|].
      eexists. split_and!; [done|done|]. simpl. done.
    + apply (Hkeep _ []); [done|by simpl; rewrite app_nil_r|done|by left
                          |intros to msg Hin; by destruct (Hnil _ _ Hin)].
Qed.

(** X8.  What a request sends.  Over its whole life a request object sends
    its Request first, to the address it was constructed for, and after it
    nothing but Commits; every Commit goes to the commit address that the
    object holds, the one of the Ack, and is sent only once the object is
    constructed; a Commit{true} names a result mailbox on the requester's
    own node, and a Commit{false} is the abandon message with empty
    metadata and the null result address. *)
Theorem request_sends_request_then_commits me lost target es r :
  request_run es (request_constructor_begin me lost target) = Done r →
  ∃ rest,
    request_trace r =
      robs_send target (msg_request (mk_request_msg (mk_address me 0))) :: rest ∧
    ∀ to msg, robs_send to msg ∈ rest →
      is_constructed r ∧
      ∃ cm : commit_msg_t metadata_t,
        msg = msg_commit cm ∧ to = commit_mailbox_address (object r) ∧
        if commit cm then get_peer (result_mailbox cm) = me
        else cm = mk_commit_msg false metadata_default nil_address.
Proof.
  intros Hrun.
  assert (∀ r0, sends_inv me target r0 → request_run es r0 = Done r →
                sends_inv me target r) as Hgen.
  { clear. induction es as [|e es IH]; intros r0 Hinv; simpl.
    - by intros [= <-].
    - destruct (request_step e r0) as [r1| |] eqn:E; [|done|done].
      apply IH. by eapply sends_step. }
  assert (sends_inv me target (request_constructor_begin me lost target))
    as Hinit.
  { split; [done|]. exists []. split; [done|]. by intros ?? ?%elem_of_nil. }
  destruct (Hgen _ Hinit Hrun) as (_ & rest & Ht & Hs).
  exists rest. split; [done|]. exact Hs.
Qed.

Lemma returns_step seen e r r' :
  returns_inv seen r → request_step e r = Done r' →
  returns_inv (seen ++ [e]) r'.
Proof.
  intros Hinv0 Hstep. pose proof Hinv0 as (Hp & Hret).
  assert (returns_inv (seen ++ [e]) r) as Hweak.
  { split.
    - intros mb x w Hpc. rewrite elem_of_app. left. by eapply Hp.
    - intros Hin. destruct (Hret Hin) as [mb Hmb]. exists mb.
      rewrite elem_of_app. by left. }
  assert (∀ r1 extra,
    request_trace r1 = request_trace r ++ extra →
    (robs_return true : request_obs metadata_t) ∉ extra →
    (∀ mb x w, pc r1 = in_update mb (Some x) w → rev_result mb x ∈ seen ++ [e]) →
    returns_inv (seen ++ [e]) r1) as Hkeep.
  { intros r1 extra Ht Hex Hp1. split; [done|].
    rewrite Ht. intros [Hin|Hin]%elem_of_app; [|done].
    destruct (Hret Hin) as [mb Hmb]. exists mb. rewrite elem_of_app. by left. }
  destruct e as [mb' a|mb' res|q| |m| |]; simpl in Hstep.
  - destruct (pc r) as [mb0 d0 w0| |mb0 p0 w0|x0|] eqn:E;
      try (injection Hstep as <-; exact Hweak).
    case_decide; injection Hstep as <-; [|exact Hweak].
    apply (Hkeep _ []).
    + unfold request_handle_ack. rewrite E. simpl. by rewrite app_nil_r.
    + by intros ?%elem_of_nil.
    + unfold request_handle_ack. rewrite E. done.
  - destruct (pc r) as [mb0 d0 w0| |mb0 p0 w0|x0|] eqn:E;
      try (injection Hstep as <-; exact Hweak).
    case_decide as Hmb; injection Hstep as <-; [|exact Hweak]. subst mb'.
    apply (Hkeep _ []).
    + unfold request_promise_pulse. rewrite E. simpl. by rewrite app_nil_r.
    + by intros ?%elem_of_nil.
    + unfold request_promise_pulse. rewrite E. simpl.
      intros mb x w [= <- <- <-]. rewrite elem_of_app. right.
      by apply list_elem_of_singleton.
  - injection Hstep as <-. destruct Hweak as [Hw1 Hw2]. by split.
  - destruct (pc r) as [mb0 d0 w0| |mb0 p0 w0|x0|] eqn:E; try done.
    + destruct (d0 || request_dc_is_pulsed w0 r); [|done].
      injection Hstep as <-. unfold request_constructor_resume.
      destruct (request_dc_is_pulsed w0 r).
      * apply (Hkeep _ [robs_throw resource_lost_exc_t]); [done| |done].
        by intros ?%list_elem_of_singleton.
      * apply (Hkeep _ []); [by simpl; rewrite app_nil_r| |done].
        by intros ?%elem_of_nil.
    + destruct (bool_decide (is_Some p0) || _); [|done].
      injection Hstep as <-. split; [done|].
      simpl. intros [Hin|Hin]%elem_of_app.
      * destruct (Hret Hin) as [mb Hmb]. exists mb. rewrite elem_of_app. by left.
      * apply list_elem_of_singleton in Hin. injection Hin as Hin.
        destruct p0 as [[b]|]; simpl in Hin; [|done]. subst b.
        exists mb0. rewrite elem_of_app. left. by apply (Hp mb0 _ w0).
  - destruct (pc r) as [mb0 d0 w0| |mb0 p0 w0|x0|] eqn:E; try done.
    injection Hstep as <-.
    eapply Hkeep; [done| |done].
    by intros ?%list_elem_of_singleton.
  - destruct (pc r) as [mb0 d0 w0| |mb0 p0 w0|x0|] eqn:E; try done.
    injection Hstep as <-. exact Hweak.
  - destruct (pc r) as [mb0 d0 w0| |mb0 p0 w0|x0|] eqn:E; try done.
    injection Hstep as <-. unfold request_destructor.
    destruct (interest_acquired (object r)).
    + eapply Hkeep; [done| |done]. by intros ?%list_elem_of_singleton.
    + apply (Hkeep _ []); [by simpl; rewrite app_nil_r| |done].
      by intros ?%elem_of_nil.
Qed.

(** X9.  [update] says true only on a Result{true}.  Whatever happens to a
    request object over its life, a call of [update] on it returns true only
    if a Result carrying true has been delivered to the requester before: a
    disconnect, an Ack or a Result{false} never makes [update] return
    true. *)
Theorem update_true_needs_result me lost target es r :
  request_run es (request_constructor_begin me lost target) = Done r →
  robs_return true ∈ request_trace r →
  ∃ mb, rev_result mb (mk_result_msg true) ∈ es.
Proof.
  intros Hrun.
  assert (∀ es seen r0, returns_inv seen r0 → request_run es r0 = Done r →
                        returns_inv (seen ++ es) r) as Hgen.
  { clear. intros es. induction es as [|e es IH]; intros seen r0 Hinv; simpl.
    - intros [= <-]. by rewrite app_nil_r.
    - destruct (request_step e r0) as [r1| |] eqn:E; [|done|done].
      intros Hrun.
      replace (seen ++ e :: es) with ((seen ++ [e]) ++ es)
        by (by rewrite <-app_assoc).
      apply (IH _ r1); [by eapply returns_step|done]. }
  assert (returns_inv [] (request_constructor_begin me lost target)) as Hinit.
  { split; [done|]. simpl. intros Hin. apply list_elem_of_singleton in Hin.
    done. }
  destruct (Hgen es [] _ Hinit Hrun) as [_ H]. exact H.
Qed.

(** ** Winding down *)

(** A waiting session retires when its requester is lost and it is resumed;
    nothing else changes. *)
Lemma retire_waiting h c f :
  reachable h → tasks h !! c = Some (coro_waiting f) →
  ∃ h',
    run [ev_disconnect (get_peer (frame_ack_mailbox f)); ev_schedule c] h
      = Done h' ∧
    tasks h' = delete c (tasks h) ∧ phase h' = phase h ∧
    metadata_view h' = metadata_view h ∧
    joins (trace h') = joins (trace h).
Proof.
  intros Hreach E.
  pose proof (reachable_not_released h c _ Hreach E) as Hp.
  eexists. split.
  - simpl. unfold step at 1.
    destruct (phase h) eqn:Hph; [| |done];
      (unfold step; simpl; rewrite Hph;
       unfold schedule, remote_change_request_coro_resume, wait_any,
         dc_watcher_is_pulsed; simpl; rewrite E;
       rewrite bool_decide_eq_true_2 by apply registry_insert_eq;
       rewrite orb_true_r; reflexivity).
  - simpl. split_and!; [done..|].
    by rewrite joins_app, app_nil_r.
Qed.

(** Every task of a handler can be brought to its end without a further
    message. *)
Lemma drain_tasks n h :
  size (tasks h) = n → reachable h →
  ∃ es h',
    run es h = Done h' ∧ tasks h' = ∅ ∧ phase h' = phase h ∧
    metadata_view h' = metadata_view h ∧
    joins (trace h') = joins (trace h) ∧
    ∀ e, e ∈ es → retiring e.
Proof.
  revert h. induction n as [|n IH]; intros h Hsize Hreach.
  - exists [], h. split_and!; try done.
    + by apply map_size_empty_inv.
    + by intros e ?%elem_of_nil.
  - assert (tasks h ≠ ∅) as Hne.
    { intros He. rewrite He, map_size_empty in Hsize. done. }
    destruct (map_choose _ Hne) as (c & x & E).
    pose proof (reachable_not_released h c _ Hreach E) as Hp.
    assert (∃ es1 h1, run es1 h = Done h1 ∧ tasks h1 = delete c (tasks h) ∧
              phase h1 = phase h ∧ metadata_view h1 = metadata_view h ∧
              joins (trace h1) = joins (trace h) ∧
              ∀ e, e ∈ es1 → retiring e)
      as (es1 & h1 & Hrun1 & Ht1 & Hp1 & Hv1 & Hj1 & Hk1).
    { destruct x as [ack|f|b to].
      - assert (step (ev_schedule c) h =
                Done (remote_change_request_coro_begin c ack h)) as S1.
        { unfold step, schedule. rewrite E. by destruct (phase h). }
        destruct (coro_begin_fields c ack h) as (Htb&Hvb&_&Eb).
        destruct (retire_waiting _ c _ (reachable_step _ _ _ Hreach S1) Eb)
          as (h1 & Hr & Ht & Hph & Hv & Hj).
        exists (ev_schedule c :: [ev_disconnect (get_peer ack); ev_schedule c]), h1.
        split_and!.
        + change (run (ev_schedule c :: ?l) h)
            with (match step (ev_schedule c) h with
                  | Done h' => run l h' | Fatal => Fatal | Blocked => Blocked
                  end). rewrite S1. exact Hr.
        + rewrite Ht. simpl. by rewrite delete_insert_eq.
        + rewrite Hph. done.
        + by rewrite Hv, Hvb.
        + rewrite Hj, Htb, joins_app. simpl. by rewrite app_nil_r.
        + intros e. rewrite !elem_of_cons, elem_of_nil.
          intros [->|[->|[->|[]]]]; done.
      - destruct (retire_waiting h c f Hreach E) as (h1 & Hr & Ht & Hph & Hv & Hj).
        exists [ev_disconnect (get_peer (frame_ack_mailbox f)); ev_schedule c], h1.
        split_and!; try done.
        intros e. rewrite !elem_of_cons, elem_of_nil.
        intros [->|[->|[]]]; done.
      - exists [ev_schedule c], (send_result c b to h). split_and!; try done.
        + simpl. unfold step, schedule. rewrite E. by destruct (phase h).
        + simpl. by rewrite joins_app, app_nil_r.
        + intros e ->%list_elem_of_singleton. done. }
    destruct (IH h1) as (es2 & h2 & Hrun2 & Ht2 & Hp2 & Hv2 & Hj2 & Hk2).
    { rewrite Ht1, map_size_delete_Some by (by rewrite E). by rewrite Hsize. }
    { by eapply reachable_run. }
    exists (es1 ++ es2), h2. split_and!.
    + by rewrite run_app, Hrun1.
    + done.
    + congruence.
    + congruence.
    + congruence.
    + intros e [?|?]%elem_of_app; [by apply Hk1|by apply Hk2].
Qed.

(** X11.  A handler can always be wound down.  From every state that a live
    handler can reach there is a way to the released state that needs no
    further message from any requester and no call of [update]: each
    outstanding task is scheduled to its end, a waiting session after the
    loss of its requester, and the destructor then finds the registry empty
    and the drainer idle.  Winding down calls no [join] and leaves the store
    as it is. *)
Theorem handler_can_always_retire h :
  reachable h → phase h = alive →
  ∃ es h',
    run es h = Done h' ∧ phase h' = released ∧
    metadata_view h' = metadata_view h ∧
    joins (trace h') = joins (trace h) ∧
    ∀ e, e ∈ es → retiring e.
Proof.
  intros Hreach Hp.
  destruct (drain_tasks _ h eq_refl Hreach)
    as (es & h1 & Hrun & Ht & Hp1 & Hv & Hj & Hk).
  pose proof (reachable_run _ _ _ Hreach Hrun) as Hreach1.
  pose proof (reachable_inv h1 Hreach1) as Hinv1.
  assert (coro_invalid_conditions h1 = ∅) as Hreg.
  { apply set_eq. intros c. split; [|by intros ?%not_elem_of_empty].
    intros Hc. destruct (inv_registered h1 c Hinv1 Hc) as [f Hf].
    by rewrite Ht, lookup_empty in Hf. }
  exists (es ++ [ev_destroy; ev_drained]), (set_phase released (set_phase draining h1)).
  split_and!; [|done|done|done|].
  - rewrite run_app, Hrun. simpl. unfold step. rewrite Hp1, Hp.
    unfold destructor_body. rewrite decide_True by done. simpl.
    unfold destructor_drained. simpl.
    by rewrite (inv_drainer h1 Hinv1), Ht, map_size_empty.
  - intros e [?|Hin]%elem_of_app; [by apply Hk|].
    apply elem_of_cons in Hin as [->|Hin]; [done|].
    by apply list_elem_of_singleton in Hin as ->.
Qed.

(** ** The two ends together *)

(** X12.  A negotiation that nothing disturbs succeeds.  Take a handler in
    any state it can reach, not yet released, and a requester on node [me]
    that has not lost the handler's node.  The requester's constructor sends
    its Request; the handler spawns a session, which registers and acks with
    the current store; the constructor completes with that snapshot; the
    requester's [update(mv)] sends Commit{true, mv} to the session's commit
    mailbox; the handler accepts, joins [mv] into the store and sends
    Result{true} to the requester's result mailbox; [update] returns true.
    Each message received at one end is the message sent at the other. *)
Theorem negotiation_succeeds h me lost (mv : metadata_t) :
  reachable h → phase h ≠ released → mailbox_manager h ∉ lost →
  let r0 := request_constructor_begin me lost (get_request_mailbox_address h) in
  let req := mk_request_msg (mk_address me 0) in
  let c := next_coro h in
  let ack := mk_ack_msg (metadata_view h) (commit_mailbox_of h c) in
  let cm := mk_commit_msg true mv (mk_address me 1) in
  ∃ h' r',
    request_trace r0 =
      [robs_send (get_request_mailbox_address h) (msg_request req)] ∧
    run [ev_request req; ev_schedule c; ev_commit c cm; ev_schedule (S c)] h
      = Done h' ∧
    trace h' = trace h ++
      [obs_insert c;
       obs_send (mk_address me 0) (msg_ack ack);
       obs_join mv;
       obs_send (mk_address me 1) (msg_result (mk_result_msg true))] ∧
    metadata_view h' = semilattice_join (metadata_view h) mv ∧
    request_run
      [rev_ack 0 ack; rev_resume; rev_update mv;
       rev_result 1 (mk_result_msg true); rev_resume] r0 = Done r' ∧
    request_trace r' =
      [robs_send (get_request_mailbox_address h) (msg_request req);
       robs_send (commit_mailbox_of h c) (msg_commit cm);
       robs_return true] ∧
    request_get r' = metadata_view h.
Proof.
  intros Hreach Hp Hlost r0 req c ack cm.
  set (h1 := remote_change_request req h).
  assert (step (ev_request req) h = Done h1) as S1.
  { unfold step. by destruct (phase h). }
  pose proof (reachable_step _ _ _ Hreach S1) as Hreach1.
  assert (tasks h1 !! c = Some (coro_spawned (mk_address me 0))) as E1.
  { unfold h1. simpl. by rewrite lookup_insert_eq. }
  set (h2 := remote_change_request_coro_begin c (mk_address me 0) h1).
  assert (step (ev_schedule c) h1 = Done h2) as S2.
  { unfold step, schedule. rewrite E1. unfold h1. simpl. by destruct (phase h). }
  pose proof (reachable_step _ _ _ Hreach1 S2) as Hreach2.
  destruct (coro_begin_fields c (mk_address me 0) h1) as (Ht2&Hv2&Hn2&E2).
  fold h2 in Ht2, Hv2, Hn2, E2.
  assert (phase h2 ≠ released) as Hp2 by (by eapply reachable_not_released).
  destruct (handle_commit_accept_fields h2 c _ cm (reachable_inv _ Hreach2)
              E2 eq_refl eq_refl) as (Hv3&Ht3&_&_&Hnew).
  set (h3 := handle_commit c cm h2) in *.
  assert (phase h3 ≠ released) as Hp3.
  { unfold h3. by rewrite handle_commit_phase. }
  assert (next_coro h2 = S c) as Hn.
  { rewrite Hn2. done. }
  rewrite Hn in Hnew.
  destruct (schedule_send_result h3 (S c) _ _ Hp3 Hnew) as [S4 Ht4].
  assert (request_constructor_resume (mailbox_manager h)
            (request_handle_ack ack r0)
          = request_set_pc constructed (request_handle_ack ack r0)) as Hc.
  { unfold request_constructor_resume, request_dc_is_pulsed. simpl.
    by rewrite bool_decide_eq_false_2. }
  exists (send_result (S c) true (mk_address me 1) h3). eexists.
  split_and!.
  - done.
  - simpl. rewrite S1, S2.
    rewrite (step_commit_waiting h2 c _ cm Hp2 E2). fold h3. by rewrite S4.
  - etrans; [exact Ht4|]. rewrite Ht3, Ht2. unfold h1. simpl.
    by rewrite <-!app_assoc.
  - simpl. fold h3. by rewrite Hv3, Hv2.
  - simpl. rewrite Hc. simpl. reflexivity.
  - done.
  - done.
Qed.

(** A Request and the first run of its session: the session is registered,
    the Ack with the current store is out, the session waits. *)
Lemma session_opens h ack :
  reachable h → phase h ≠ released →
  let c := next_coro h in
  ∃ h2,
    run [ev_request (mk_request_msg ack); ev_schedule c] h = Done h2 ∧
    reachable h2 ∧ phase h2 ≠ released ∧
    trace h2 = trace h ++
      [obs_insert c;
       obs_send ack (msg_ack (mk_ack_msg (metadata_view h) (commit_mailbox_of h c)))] ∧
    metadata_view h2 = metadata_view h ∧ next_coro h2 = S c ∧
    c ∈ coro_invalid_conditions h2 ∧
    tasks h2 !! c = Some (coro_waiting (mk_frame ack false false)).
Proof.
  intros Hreach Hp c.
  set (h1 := remote_change_request (mk_request_msg ack) h).
  assert (step (ev_request (mk_request_msg ack)) h = Done h1) as S1.
  { unfold step. by destruct (phase h). }
  pose proof (reachable_step _ _ _ Hreach S1) as Hreach1.
  assert (tasks h1 !! c = Some (coro_spawned ack)) as E1.
  { unfold h1. simpl. by rewrite lookup_insert_eq. }
  set (h2 := remote_change_request_coro_begin c ack h1).
  assert (step (ev_schedule c) h1 = Done h2) as S2.
  { unfold step, schedule. rewrite E1. unfold h1. simpl. by destruct (phase h). }
  pose proof (reachable_step _ _ _ Hreach1 S2) as Hreach2.
  destruct (coro_begin_fields c ack h1) as (Ht2&Hv2&Hn2&E2).
  fold h2 in Ht2, Hv2, Hn2, E2.
  exists h2. split_and!.
  - simpl. by rewrite S1, S2.
  - done.
  - by eapply reachable_not_released.
  - done.
  - done.
  - done.
  - unfold h2. simpl. apply registry_insert_eq.
  - done.
Qed.

(** X13.  A negotiation loses to an update of the store.  As X12, but the
    owner of the handler calls [update(m)] after the Ack is out and before
    the Commit arrives: the handler refuses the Commit, the store holds [m]
    and not the proposed [mv], Result{false} goes to the requester's result
    mailbox, and the requester's [update(mv)] returns false. *)
Theorem negotiation_lost_to_update h me lost (m mv : metadata_t) :
  reachable h → phase h ≠ released → mailbox_manager h ∉ lost →
  let r0 := request_constructor_begin me lost (get_request_mailbox_address h) in
  let req := mk_request_msg (mk_address me 0) in
  let c := next_coro h in
  let ack := mk_ack_msg (metadata_view h) (commit_mailbox_of h c) in
  let cm := mk_commit_msg true mv (mk_address me 1) in
  ∃ h' r',
    run [ev_request req; ev_schedule c; ev_update m; ev_commit c cm;
         ev_schedule (S c)] h = Done h' ∧
    trace h' = trace h ++
      [obs_insert c;
       obs_send (mk_address me 0) (msg_ack ack);
       obs_join m;
       obs_send (mk_address me 1) (msg_result (mk_result_msg false))] ∧
    metadata_view h' = semilattice_join (metadata_view h) m ∧
    request_run
      [rev_ack 0 ack; rev_resume; rev_update mv;
       rev_result 1 (mk_result_msg false); rev_resume] r0 = Done r' ∧
    request_trace r' =
      [robs_send (get_request_mailbox_address h) (msg_request req);
       robs_send (commit_mailbox_of h c) (msg_commit cm);
       robs_return false] ∧
    request_get r' = metadata_view h.
Proof.
  intros Hreach Hp Hlost r0 req c ack cm.
  destruct (session_opens h (mk_address me 0) Hreach Hp)
    as (h2 & R2 & Hreach2 & Hp2 & Ht2 & Hv2 & Hn2 & Hin2 & E2).
  fold c in R2, Ht2, Hn2, Hin2, E2.
  assert (step (ev_update m) h2 = Done (update m h2)) as S3.
  { unfold step. by destruct (phase h2). }
  pose proof (reachable_step _ _ _ Hreach2 S3) as Hreach3.
  destruct (update_fields m h2) as (Hv3&_&_&Hn3&_&Hp3&_&Ht3).
  assert (tasks (update m h2) !! c
          = Some (coro_waiting (mk_frame (mk_address me 0) true false))) as E3.
  { rewrite update_tasks, decide_True by done. by rewrite E2. }
  set (h3 := update m h2) in *.
  assert (phase h3 ≠ released) as Hp3' by congruence.
  destruct (handle_commit_reject_fields h3 c _ cm (reachable_inv _ Hreach3)
              E3 eq_refl eq_refl) as (Hv4&Ht4&_&_&Hnew).
  set (h4 := handle_commit c cm h3) in *.
  assert (phase h4 ≠ released) as Hp4.
  { unfold h4. by rewrite handle_commit_phase. }
  rewrite Hn3, Hn2 in Hnew.
  destruct (schedule_send_result h4 (S c) _ _ Hp4 Hnew) as [S5 Ht5].
  assert (request_constructor_resume (mailbox_manager h)
            (request_handle_ack ack r0)
          = request_set_pc constructed (request_handle_ack ack r0)) as Hc.
  { unfold request_constructor_resume, request_dc_is_pulsed. simpl.
    by rewrite bool_decide_eq_false_2. }
  exists (send_result (S c) false (mk_address me 1) h4). eexists.
  split_and!.
  - change (run ([ev_request req; ev_schedule c] ++
                 [ev_update m; ev_commit c cm; ev_schedule (S c)]) h = Done
              (send_result (S c) false (mk_address me 1) h4)).
    rewrite run_app. unfold req. rewrite R2. simpl. rewrite S3.
    rewrite (step_commit_waiting h3 c _ cm Hp3' E3). fold h4. by rewrite S5.
  - etrans; [exact Ht5|]. rewrite Ht4, Ht3, Ht2. by rewrite <-!app_assoc.
  - simpl. fold h4. by rewrite Hv4, Hv3, Hv2.
  - simpl. rewrite Hc. simpl. reflexivity.
  - done.
  - done.
Qed.

(** X14.  An abandoned negotiation leaves the store alone.  As X12, but the
    requester is destroyed without a call to [update]: its destructor sends
    Commit{false} with a default value and a nil result mailbox to the
    session's commit mailbox; the handler ends the session and removes it
    from the registry, sends no Result, and the store is what it was. *)
Theorem negotiation_abandoned h me lost :
  reachable h → phase h ≠ released → mailbox_manager h ∉ lost →
  let r0 := request_constructor_begin me lost (get_request_mailbox_address h) in
  let req := mk_request_msg (mk_address me 0) in
  let c := next_coro h in
  let ack := mk_ack_msg (metadata_view h) (commit_mailbox_of h c) in
  let cm := mk_commit_msg false metadata_default nil_address in
  ∃ h' r',
    request_run [rev_ack 0 ack; rev_resume; rev_destroy] r0 = Done r' ∧
    request_trace r' =
      [robs_send (get_request_mailbox_address h) (msg_request req);
       robs_send (commit_mailbox_of h c) (msg_commit cm)] ∧
    run [ev_request req; ev_schedule c; ev_commit c cm; ev_schedule c] h
      = Done h' ∧
    trace h' = trace h ++
      [obs_insert c; obs_send (mk_address me 0) (msg_ack ack); obs_erase c] ∧
    metadata_view h' = metadata_view h ∧
    tasks h' !! c = None ∧ (c ∉ coro_invalid_conditions h').
Proof.
  intros Hreach Hp Hlost r0 req c ack cm.
  destruct (session_opens h (mk_address me 0) Hreach Hp)
    as (h2 & R2 & Hreach2 & Hp2 & Ht2 & Hv2 & Hn2 & Hin2 & E2).
  fold c in R2, Ht2, Hn2, Hin2, E2.
  pose proof (handle_commit_abandon h2 c _ cm E2 eq_refl) as H3.
  set (h3 := handle_commit c cm h2) in *.
  assert (phase h3 ≠ released) as Hp3.
  { unfold h3. by rewrite handle_commit_phase. }
  assert (tasks h3 !! c
          = Some (coro_waiting (mk_frame (mk_address me 0) false true))) as E3.
  { rewrite H3. simpl. by rewrite lookup_insert_eq. }
  destruct (schedule_resume h3 c _ Hp3 E3 eq_refl)
    as (h4 & S4 & Ht4 & Hout & Hgone & Hv4).
  assert (request_constructor_resume (mailbox_manager h)
            (request_handle_ack ack r0)
          = request_set_pc constructed (request_handle_ack ack r0)) as Hc.
  { unfold request_constructor_resume, request_dc_is_pulsed. simpl.
    by rewrite bool_decide_eq_false_2. }
  exists h4. eexists. split_and!.
  - simpl. rewrite Hc. simpl. reflexivity.
  - done.
  - change (run ([ev_request req; ev_schedule c] ++
                 [ev_commit c cm; ev_schedule c]) h = Done h4).
    rewrite run_app. unfold req. rewrite R2. simpl.
    rewrite (step_commit_waiting h2 c _ cm Hp2 E2). fold h3. by rewrite S4.
  - rewrite Ht4. rewrite H3. simpl. rewrite Ht2. by rewrite <-!app_assoc.
  - rewrite Hv4, H3. simpl. done.
  - done.
  - done.
Qed.


End properties.










(** * The protocol at work

    Metadata is a version number and [join] is the maximum. *)




Lemma h_waiting_reachable : reachable h_waiting.
Proof. exists 1, 1, session_opened. vm_compute. reflexivity. Defined.

Lemma h_invalidated_reachable : reachable h_invalidated.
Proof.
  exists 1, 1, (session_opened ++ [ev_update 2]). vm_compute. reflexivity.
Defined.

(** The scenario of the specification: the store starts at version 1; a
    first requester gets its Ack, the owner updates to version 2, the
    requester's commit of version 3 is rejected and the store stays at 2; a
    second requester then commits version 4 and the store becomes 4. *)
Example spec_scenario :
  let h := state_after
    [ev_request (mk_request_msg requester_ack); ev_schedule 0;
     ev_update 2;
     ev_commit 0 commit_3; ev_schedule 1; ev_schedule 0;
     ev_request (mk_request_msg (mk_address 8 0)); ev_schedule 2;
     ev_commit 2 (mk_commit_msg true 4 (mk_address 8 1));
     ev_schedule 3; ev_schedule 2]
    (new_handler 1 1) in
  metadata_view h_invalidated = 2 ∧
  metadata_view h = 4 ∧
  joins (trace h) = [2; 4] ∧
  trace h =
    [obs_insert 0;
     obs_send requester_ack (msg_ack (mk_ack_msg 1 (mk_address 1 1)));
     obs_join 2;
     obs_send requester_result (msg_result (mk_result_msg false));
     obs_erase 0;
     obs_insert 2;
     obs_send (mk_address 8 0) (msg_ack (mk_ack_msg 2 (mk_address 1 3)));
     obs_join 4;
     obs_send (mk_address 8 1) (msg_result (mk_result_msg true));
     obs_erase 2] ∧
  coro_invalid_conditions h = ∅ ∧ tasks h = ∅ ∧ drainer h = 0.
Proof. vm_compute. repeat split; reflexivity. Qed.

(** The rejected commit of that scenario seen from both ends: what the
    requester sends is what the handler receives, and the Result that the
    handler sends makes the requester's [update] return false. *)
Example rejected_commit_end_to_end :
  let r1 := request_after [rev_ack 0 ack_1; rev_resume; rev_update 3] r_waiting in
  request_trace r1 =
    [robs_send handler_request (msg_request (mk_request_msg requester_ack));
     robs_send (mk_address 1 1) (msg_commit commit_3)] ∧
  trace (state_after [ev_commit 0 commit_3; ev_schedule 1] h_invalidated) =
    [obs_insert 0;
     obs_send requester_ack (msg_ack ack_1);
     obs_join 2;
     obs_send requester_result (msg_result (mk_result_msg false))] ∧
  request_trace
    (request_after [rev_result 1 (mk_result_msg false); rev_resume] r1) =
    request_trace r1 ++ [robs_return false].
Proof. vm_compute. repeat split; reflexivity. Qed.

(** ** The handler *)

Lemma commit_outcome_witness :
  reachable h_invalidated ∧
  tasks h_invalidated !! 0 =
    Some (coro_waiting (mk_frame requester_ack true false)) ∧
  commit commit_3 = true ∧
  ∃ h' h'' r',
    step (ev_commit 0 commit_3) h_invalidated = Done h' ∧
    metadata_view h' = 2 ∧
    step (ev_schedule 1) h' = Done h'' ∧
    trace h'' =
      trace h' ++ [obs_send requester_result (msg_result (mk_result_msg false))] ∧
    request_run [rev_result 1 (mk_result_msg false); rev_resume]
      (request_update_begin 3 r_constructed) = Done r' ∧
    pc r' = constructed ∧
    request_trace r' =
      request_trace (request_update_begin 3 r_constructed) ++ [robs_return false].
Proof.
  assert (tasks h_invalidated !! 0 =
          Some (coro_waiting (mk_frame requester_ack true false))) as Ht
    by (vm_compute; reflexivity).
  split_and!; [exact h_invalidated_reachable|exact Ht|reflexivity|].
  destruct (commit_outcome h_invalidated 0 _ commit_3
              h_invalidated_reachable Ht eq_refl) as [_ H].
  destruct (H [obs_insert 0] requester_ack 1 [obs_join 2])
    as (h' & h'' & H1 & H2 & _ & _ & H5 & H6 & _ & Hclient).
  { vm_compute. reflexivity. }
  assert (pc (request_update_begin 3 r_constructed) = in_update 1 None 1) as Hpc
    by (vm_compute; reflexivity).
  destruct (Hclient (request_update_begin 3 r_constructed) 1 1 Hpc eq_refl)
    as [(r' & R1 & R2 & R3) _].
  exists h', h'', r'.
  split_and!; [exact H1|exact H2|exact H5|exact H6|exact R1|exact R2|exact R3].
Defined.

Lemma accepted_commit_pulses_own_flag_witness :
  reachable h_waiting ∧
  tasks h_waiting !! 0 =
    Some (coro_waiting (mk_frame requester_ack false false)) ∧
  ∃ h' h'',
    step (ev_commit 0 commit_3) h_waiting = Done h' ∧
    is_pulsed 0 h' = true ∧
    step (ev_schedule 1) h' = Done h'' ∧
    trace h'' =
      trace h' ++ [obs_send requester_result (msg_result (mk_result_msg true))].
Proof.
  assert (tasks h_waiting !! 0 =
          Some (coro_waiting (mk_frame requester_ack false false))) as Ht
    by (vm_compute; reflexivity).
  split_and!; [exact h_waiting_reachable|exact Ht|].
  destruct (accepted_commit_pulses_own_flag h_waiting 0 _ commit_3
              h_waiting_reachable Ht eq_refl eq_refl)
    as (_ & _ & _ & h' & h'' & H1 & _ & H3 & _ & H5 & H6).
  exists h', h''. split_and!; [exact H1|exact H3|exact H5|exact H6].
Defined.

Lemma join_only_on_accepted_commit_witness :
  reachable h_waiting ∧
  step (ev_commit 0 abandon) h_waiting =
    Done (state_after [ev_commit 0 abandon] h_waiting) ∧
  trace (state_after [ev_commit 0 abandon] h_waiting) = trace h_waiting ∧
  metadata_view (state_after [ev_commit 0 abandon] h_waiting) = 1.
Proof.
  assert (step (ev_commit 0 abandon) h_waiting =
          Done (state_after [ev_commit 0 abandon] h_waiting)) as Hs
    by (vm_compute; reflexivity).
  split_and!; [exact h_waiting_reachable|exact Hs|..].
  - destruct (join_only_on_accepted_commit _ _ _ h_waiting_reachable Hs)
      as (_ & _ & _ & H).
    destruct (H 0 abandon (mk_frame requester_ack false false) eq_refl)
      as (Ht & _); [vm_compute; reflexivity|reflexivity|exact Ht].
  - vm_compute. reflexivity.
Defined.


Lemma two_sessions_reachable : reachable two_sessions.
Proof.
  exists 1, 1,
    (session_opened ++ [ev_request (mk_request_msg (mk_address 8 0)); ev_schedule 1]).
  vm_compute. reflexivity.
Defined.

Lemma invalid_condition_one_shot_witness :
  reachable two_sessions ∧
  tasks (update 5 two_sessions) !! 0 =
    Some (coro_waiting (mk_frame requester_ack true false)) ∧
  tasks (update 5 two_sessions) !! 1 =
    Some (coro_waiting (mk_frame (mk_address 8 0) true false)).
Proof.
  destruct (invalid_condition_one_shot two_sessions two_sessions_reachable)
    as (_ & H & _).
  split_and!; [exact two_sessions_reachable|..].
  - apply (H 5 0 (mk_frame requester_ack false false)). vm_compute. reflexivity.
  - apply (H 5 1 (mk_frame (mk_address 8 0) false false)). vm_compute. reflexivity.
Defined.

Lemma registry_lifecycle_witness :
  reachable h_waiting ∧
  ∃ h', step (ev_disconnect 7) h_waiting = Done h' ∧
        tasks h' !! 0 = Some (coro_waiting (mk_frame requester_ack false false)) ∧
        wait_any (mk_frame requester_ack false false) h' = true ∧
        0 ∈ coro_invalid_conditions h'.
Proof.
  split; [exact h_waiting_reachable|].
  destruct (registry_lifecycle h_waiting h_waiting_reachable)
    as (_ & _ & _ & _ & H).
  apply (H 0 (mk_frame requester_ack false false)). vm_compute. reflexivity.
Defined.

(** C4 as stated fails: the Result of an accepted commit is sent by its own
    task, and here that task runs while session 0 has not been resumed: the
    Result is the fourth entry of the trace and no removal comes before it. *)
Lemma result_sent_before_removal :
  ¬ (∀ h,
       run (session_opened ++ [ev_commit 0 commit_3; ev_schedule 1])
         (new_handler 1 1) = Done h →
       ∀ i to res, trace h !! i = Some (obs_send to (msg_result res)) →
         ∃ j, j < i ∧ trace h !! j = Some (obs_erase 0)).
Proof.
  intros H.
  pose (h := state_after
               (session_opened ++ [ev_commit 0 commit_3; ev_schedule 1])
               (new_handler 1 1)).
  assert (run (session_opened ++ [ev_commit 0 commit_3; ev_schedule 1])
            (new_handler 1 1) = Done h) as Hrun by (vm_compute; reflexivity).
  assert (trace h !! 3 =
          Some (obs_send requester_result (msg_result (mk_result_msg true))))
    as Hres by (vm_compute; reflexivity).
  destruct (H h Hrun 3 _ _ Hres) as (j & Hj & Hl).
  destruct j as [|[|[|j]]]; [vm_compute in Hl; discriminate..|lia].
Qed.

Lemma destructor_needs_empty_registry_witness :
  reachable h_waiting ∧ step ev_destroy h_waiting = Fatal.
Proof.
  split; [exact h_waiting_reachable|].
  destruct (destructor_needs_empty_registry h_waiting h_waiting_reachable)
    as (H & _).
  apply H; [vm_compute; reflexivity|].
  intros He. assert (0 ∈ coro_invalid_conditions h_waiting) as Hin
    by (vm_compute; reflexivity).
  rewrite He in Hin. exact (not_elem_of_empty (C:=gset coro_id) 0 Hin).
Defined.

(** ** The request object *)



Lemma resource_lost_iff_watcher_pulsed_witness :
  forallb external [rev_ack 0 ack_1] = true ∧
  request_run ([rev_ack 0 ack_1] ++ [rev_resume]) r_waiting = Done r_constructed ∧
  pc r_constructed = constructed ∧
  interest_acquired (object r_constructed) = true ∧
  remote_metadata (object r_constructed) = 1 ∧
  commit_mailbox_address (object r_constructed) = mk_address 1 1.
Proof.
  assert (request_run ([rev_ack 0 ack_1] ++ [rev_resume]) r_waiting
          = Done r_constructed) as Hrun by (vm_compute; reflexivity).
  destruct (resource_lost_iff_watcher_pulsed 7 ∅ handler_request
              [rev_ack 0 ack_1] r_constructed eq_refl Hrun)
    as (_ & _ & _ & H & _).
  destruct H as (H1 & H2 & a & Ha & H3 & H4); [vm_compute; reflexivity|].
  injection Ha as <-.
  split_and!; [reflexivity|exact Hrun|exact H1|exact H2|exact H3|exact H4].
Defined.

(** C6 as stated fails: here the Ack arrives, and is processed, before the
    peer is lost, so the peer does not disconnect before an Ack arrives; the
    constructor, resumed after both, still throws ResourceLost. *)
Lemma resource_lost_after_ack :
  ¬ (∀ r,
       request_run ([rev_ack 0 ack_1; rev_disconnect 1] ++ [rev_resume]) r_waiting
         = Done r →
       (pc r = thrown resource_lost_exc_t ↔
        bool_decide (1 ∈ (∅ : gset peer_id))
        || disconnects_before_ack 0 1 [rev_ack 0 ack_1; rev_disconnect 1] = true)).
Proof.
  intros H.
  pose (r := request_after ([rev_ack 0 ack_1; rev_disconnect 1] ++ [rev_resume])
               r_waiting).
  assert (request_run ([rev_ack 0 ack_1; rev_disconnect 1] ++ [rev_resume])
            r_waiting = Done r) as Hrun by (vm_compute; reflexivity).
  assert (pc r = thrown resource_lost_exc_t) as Hpc by (vm_compute; reflexivity).
  apply (H r Hrun) in Hpc. vm_compute in Hpc. discriminate.
Qed.


Lemma one_commit_per_update_or_abandon_witness :
  request_run abandoned_life r_waiting = Done (request_after abandoned_life r_waiting) ∧
  pc (request_after abandoned_life r_waiting) = destroyed ∧
  commits_sent (request_trace (request_after abandoned_life r_waiting)) =
    [mk_commit_msg false 0 nil_address].
Proof.
  assert (request_run abandoned_life r_waiting =
          Done (request_after abandoned_life r_waiting)) as Hrun
    by (vm_compute; reflexivity).
  assert (pc (request_after abandoned_life r_waiting) = destroyed) as Hpc
    by (vm_compute; reflexivity).
  destruct (one_commit_per_update_or_abandon 7 ∅ handler_request abandoned_life
              _ Hrun Hpc) as (H & _).
  split_and!; [exact Hrun|exact Hpc|exact (H eq_refl)].
Defined.

(** C7 as stated fails: nothing stops a second call of [update], and each
    call sends its own Commit{true}. *)

Lemma two_updates_two_commits :
  ¬ (∀ r,
       request_run two_updates r_waiting = Done r → pc r = destroyed →
       length (commits_sent (request_trace r)) = 1).
Proof.
  intros H.
  pose (r := request_after two_updates r_waiting).
  assert (request_run two_updates r_waiting = Done r) as Hrun
    by (vm_compute; reflexivity).
  assert (pc r = destroyed) as Hpc by (vm_compute; reflexivity).
  specialize (H r Hrun Hpc). vm_compute in H. discriminate.
Qed.

Example two_updates_trace :
  request_trace (request_after two_updates r_waiting) =
    [robs_send handler_request (msg_request (mk_request_msg (mk_address 7 0)));
     robs_send (mk_address 1 1)
       (msg_commit (mk_commit_msg true 3 (mk_address 7 1)));
     robs_return true;
     robs_send (mk_address 1 1)
       (msg_commit (mk_commit_msg true 4 (mk_address 7 2)));
     robs_return false].
Proof. vm_compute. reflexivity. Qed.

Lemma disconnect_wins_over_ack_witness :
  pc r_waiting = in_constructor 0 false 1 ∧
  ∃ r',
    request_run [rev_ack 0 ack_1; rev_disconnect 1; rev_resume] r_waiting = Done r' ∧
    pc r' = thrown resource_lost_exc_t ∧
    remote_metadata (object r') = 1 ∧
    commit_mailbox_address (object r') = mk_address 1 1.
Proof.
  split; [reflexivity|].
  destruct (disconnect_wins_over_ack r_waiting 0 false 1 eq_refl)
    as (_ & _ & _ & H).
  exact (H ack_1).
Defined.

(** ** Further properties, at work *)

Lemma store_is_join_of_updates_witness :
  run scenario_run (new_handler 1 1) =
    Done (state_after scenario_run (new_handler 1 1)) ∧
  joins (trace (state_after scenario_run (new_handler 1 1))) = [2; 4] ∧
  metadata_view (state_after scenario_run (new_handler 1 1)) =
    foldl Nat.max 1 [2; 4].
Proof.
  assert (run scenario_run (new_handler 1 1) =
          Done (state_after scenario_run (new_handler 1 1))) as Hrun
    by (vm_compute; reflexivity).
  assert (writes scenario_run (new_handler 1 1) = [2; 4]) as Hw
    by (vm_compute; reflexivity).
  destruct (store_is_join_of_updates 1 1 scenario_run _ Hrun) as [Hj Hv].
  split_and!; [exact Hrun|by rewrite Hj|by rewrite Hv, Hw].
Defined.

Lemma ack_snapshot_is_current_store_witness :
  run scenario_run (new_handler 1 1) =
    Done (state_after scenario_run (new_handler 1 1)) ∧
  trace (state_after scenario_run (new_handler 1 1)) !! 6 =
    Some (obs_send (mk_address 8 0) (msg_ack (mk_ack_msg 2 (mk_address 1 3)))) ∧
  2 = foldl Nat.max 1
        (joins (take 6 (trace (state_after scenario_run (new_handler 1 1))))).
Proof.
  assert (run scenario_run (new_handler 1 1) =
          Done (state_after scenario_run (new_handler 1 1))) as Hrun
    by (vm_compute; reflexivity).
  assert (trace (state_after scenario_run (new_handler 1 1)) !! 6 =
          Some (obs_send (mk_address 8 0)
                  (msg_ack (mk_ack_msg 2 (mk_address 1 3))))) as Hack
    by (vm_compute; reflexivity).
  split_and!; [exact Hrun|exact Hack|].
  exact (ack_snapshot_is_current_store 1 1 scenario_run _ 6 _ _ Hrun Hack).
Defined.

Lemma h_spawned_reachable : reachable h_spawned.
Proof.
  exists 1, 1, [ev_request (mk_request_msg requester_ack)].
  vm_compute. reflexivity.
Defined.

Lemma update_before_session_start_witness :
  reachable h_spawned ∧
  tasks h_spawned !! 0 = Some (coro_spawned requester_ack) ∧
  commit commit_3 = true ∧
  ∃ h',
    run [ev_update 2; ev_schedule 0; ev_commit 0 commit_3] h_spawned = Done h' ∧
    metadata_view h' = 3.
Proof.
  assert (tasks h_spawned !! 0 = Some (coro_spawned requester_ack)) as Ht
    by (vm_compute; reflexivity).
  split_and!; [exact h_spawned_reachable|exact Ht|reflexivity|].
  destruct (update_before_session_start h_spawned 0 requester_ack 2 commit_3
              h_spawned_reachable Ht eq_refl) as (h' & Hrun & _ & Hv & _).
  exists h'. split; [exact Hrun|exact Hv].
Defined.

Lemma first_committer_wins_witness :
  reachable two_sessions ∧
  ∃ h',
    run [ev_commit 0 commit_3; ev_commit 1 (mk_commit_msg true 4 (mk_address 8 1))]
      two_sessions = Done h' ∧
    metadata_view h' = 3 ∧
    tasks h' !! 2 = Some (send_result_spawned true requester_result) ∧
    tasks h' !! 3 = Some (send_result_spawned false (mk_address 8 1)).
Proof.
  split; [exact two_sessions_reachable|].
  destruct (first_committer_wins two_sessions 0 1
              (mk_frame requester_ack false false)
              (mk_frame (mk_address 8 0) false false)
              commit_3 (mk_commit_msg true 4 (mk_address 8 1))
              two_sessions_reachable)
    as (h' & Hrun & Hv & _ & H1 & H2);
    [lia|vm_compute; reflexivity|vm_compute; reflexivity
    |reflexivity|reflexivity|reflexivity|].
  exists h'. split_and!; [exact Hrun|exact Hv|exact H1|exact H2].
Defined.

Lemma acks_answer_requests_witness :
  run scenario_run (new_handler 1 1) =
    Done (state_after scenario_run (new_handler 1 1)) ∧
  obs_send (mk_address 8 0) (msg_ack (mk_ack_msg 2 (mk_address 1 3)))
    ∈ trace (state_after scenario_run (new_handler 1 1)) ∧
  ev_request (mk_request_msg (mk_address 8 0)) ∈ scenario_run.
Proof.
  assert (run scenario_run (new_handler 1 1) =
          Done (state_after scenario_run (new_handler 1 1))) as Hrun
    by (vm_compute; reflexivity).
  assert (obs_send (mk_address 8 0) (msg_ack (mk_ack_msg 2 (mk_address 1 3)))
            ∈ trace (state_after scenario_run (new_handler 1 1))) as Hin.
  { apply list_elem_of_lookup. exists 6. vm_compute. reflexivity. }
  split_and!; [exact Hrun|exact Hin|].
  destruct (acks_answer_requests 1 1 scenario_run _ _ _ Hrun Hin)
    as [(a & _ & H)|(r & Hr)]; [exact H|discriminate Hr].
Defined.

Lemma results_answer_commits_witness :
  run scenario_run (new_handler 1 1) =
    Done (state_after scenario_run (new_handler 1 1)) ∧
  obs_send (mk_address 8 1) (msg_result (mk_result_msg true))
    ∈ trace (state_after scenario_run (new_handler 1 1)) ∧
  ∃ c msg, ev_commit c msg ∈ scenario_run ∧ commit msg = true ∧
           result_mailbox msg = mk_address 8 1 ∧
           metadata msg ∈ joins (trace (state_after scenario_run (new_handler 1 1))).
Proof.
  assert (run scenario_run (new_handler 1 1) =
          Done (state_after scenario_run (new_handler 1 1))) as Hrun
    by (vm_compute; reflexivity).
  assert (obs_send (mk_address 8 1) (msg_result (mk_result_msg true))
            ∈ trace (state_after scenario_run (new_handler 1 1))) as Hin.
  { apply list_elem_of_lookup. exists 8. vm_compute. reflexivity. }
  split_and!; [exact Hrun|exact Hin|].
  destruct (results_answer_commits 1 1 scenario_run _ _ _ Hrun Hin)
    as (c & msg & H1 & H2 & H3 & H4).
  exists c, msg. split_and!; [exact H1|exact H2|exact H3|exact (H4 eq_refl)].
Defined.

Lemma handler_can_always_retire_witness :
  reachable h_waiting ∧ phase h_waiting = alive ∧
  ∃ es h', run es h_waiting = Done h' ∧ phase h' = released ∧
           metadata_view h' = 1.
Proof.
  split_and!; [exact h_waiting_reachable|reflexivity|].
  destruct (handler_can_always_retire h_waiting h_waiting_reachable eq_refl)
    as (es & h' & Hrun & Hp & Hv & _).
  exists es, h'. split_and!; [exact Hrun|exact Hp|exact Hv].
Defined.

Lemma snapshot_is_stable_witness :
  pc r_constructed = constructed ∧
  request_run [rev_update 3; rev_result 1 (mk_result_msg true); rev_resume]
    r_constructed = Done (request_after committed_life r_waiting) ∧
  request_get (request_after committed_life r_waiting) = 1.
Proof.
  assert (pc r_constructed = constructed) as Hpc by (vm_compute; reflexivity).
  assert (request_run [rev_update 3; rev_result 1 (mk_result_msg true); rev_resume]
            r_constructed = Done (request_after committed_life r_waiting))
    as Hrun by (vm_compute; reflexivity).
  split_and!; [exact Hpc|exact Hrun|].
  destruct (snapshot_is_stable r_constructed _ _ Hpc Hrun) as [H _].
  rewrite H. vm_compute. reflexivity.
Defined.

Lemma request_sends_request_then_commits_witness :
  request_run two_updates r_waiting = Done (request_after two_updates r_waiting) ∧
  ∃ rest,
    request_trace (request_after two_updates r_waiting) =
      robs_send handler_request (msg_request (mk_request_msg (mk_address 7 0)))
        :: rest.
Proof.
  assert (request_run two_updates r_waiting =
          Done (request_after two_updates r_waiting)) as Hrun
    by (vm_compute; reflexivity).
  split; [exact Hrun|].
  destruct (request_sends_request_then_commits 7 ∅ handler_request two_updates
              _ Hrun) as (rest & Ht & _).
  exists rest. exact Ht.
Defined.

Lemma update_true_needs_result_witness :
  request_run committed_life r_waiting =
    Done (request_after committed_life r_waiting) ∧
  robs_return true ∈ request_trace (request_after committed_life r_waiting) ∧
  ∃ mb, rev_result mb (mk_result_msg true) ∈ committed_life.
Proof.
  assert (request_run committed_life r_waiting =
          Done (request_after committed_life r_waiting)) as Hrun
    by (vm_compute; reflexivity).
  assert (robs_return true
            ∈ request_trace (request_after committed_life r_waiting)) as Hin.
  { apply list_elem_of_lookup. exists 2. vm_compute. reflexivity. }
  split_and!; [exact Hrun|exact Hin|].
  exact (update_true_needs_result 7 ∅ handler_request committed_life _ Hrun Hin).
Defined.


Lemma negotiation_succeeds_witness :
  reachable h_waiting ∧ phase h_waiting ≠ released ∧
  (mailbox_manager h_waiting ∉ (∅ : gset peer_id)) ∧
  ∃ h' r',
    run [ev_request (mk_request_msg (mk_address 8 0));
         ev_schedule (next_coro h_waiting);
         ev_commit (next_coro h_waiting)
           (mk_commit_msg true 4 (mk_address 8 1));
         ev_schedule (S (next_coro h_waiting))] h_waiting = Done h' ∧
    metadata_view h' = Nat.max (metadata_view h_waiting) 4 ∧
    request_run
      [rev_ack 0 (mk_ack_msg (metadata_view h_waiting)
                    (commit_mailbox_of h_waiting (next_coro h_waiting)));
       rev_resume; rev_update 4;
       rev_result 1 (mk_result_msg true); rev_resume]
      (request_constructor_begin 8 ∅ (get_request_mailbox_address h_waiting))
      = Done r' ∧
    request_get r' = metadata_view h_waiting.
Proof.
  assert (phase h_waiting ≠ released) as Hp by (vm_compute; discriminate).
  split_and!; [exact h_waiting_reachable|exact Hp|apply not_elem_of_empty|].
  destruct (negotiation_succeeds h_waiting 8 ∅ 4 h_waiting_reachable Hp
              (not_elem_of_empty _))
    as (h' & r' & _ & Hrun & _ & Hv & Hreq & _ & Hget).
  exists h', r'. split_and!; [exact Hrun|exact Hv|exact Hreq|exact Hget].
Defined.

Lemma negotiation_lost_to_update_witness :
  reachable h_waiting ∧ phase h_waiting ≠ released ∧
  (mailbox_manager h_waiting ∉ (∅ : gset peer_id)) ∧
  ∃ h' r',
    run [ev_request (mk_request_msg (mk_address 8 0));
         ev_schedule (next_coro h_waiting);
         ev_update 5;
         ev_commit (next_coro h_waiting)
           (mk_commit_msg true 4 (mk_address 8 1));
         ev_schedule (S (next_coro h_waiting))] h_waiting = Done h' ∧
    metadata_view h' = Nat.max (metadata_view h_waiting) 5 ∧
    request_run
      [rev_ack 0 (mk_ack_msg (metadata_view h_waiting)
                    (commit_mailbox_of h_waiting (next_coro h_waiting)));
       rev_resume; rev_update 4;
       rev_result 1 (mk_result_msg false); rev_resume]
      (request_constructor_begin 8 ∅ (get_request_mailbox_address h_waiting))
      = Done r' ∧
    robs_return false ∈ request_trace r'.
Proof.
  assert (phase h_waiting ≠ released) as Hp by (vm_compute; discriminate).
  split_and!; [exact h_waiting_reachable|exact Hp|apply not_elem_of_empty|].
  destruct (negotiation_lost_to_update h_waiting 8 ∅ 5 4 h_waiting_reachable Hp
              (not_elem_of_empty _))
    as (h' & r' & Hrun & _ & Hv & Hreq & Htr & _).
  exists h', r'. split_and!; [exact Hrun|exact Hv|exact Hreq|].
  rewrite Htr. do 2 apply list_elem_of_further. apply list_elem_of_here.
Defined.

Lemma negotiation_abandoned_witness :
  reachable h_waiting ∧ phase h_waiting ≠ released ∧
  (mailbox_manager h_waiting ∉ (∅ : gset peer_id)) ∧
  ∃ h' r',
    request_run
      [rev_ack 0 (mk_ack_msg (metadata_view h_waiting)
                    (commit_mailbox_of h_waiting (next_coro h_waiting)));
       rev_resume; rev_destroy]
      (request_constructor_begin 8 ∅ (get_request_mailbox_address h_waiting))
      = Done r' ∧
    run [ev_request (mk_request_msg (mk_address 8 0));
         ev_schedule (next_coro h_waiting);
         ev_commit (next_coro h_waiting)
           (mk_commit_msg false 0 nil_address);
         ev_schedule (next_coro h_waiting)] h_waiting = Done h' ∧
    metadata_view h' = metadata_view h_waiting ∧
    tasks h' !! next_coro h_waiting = None.
Proof.
  assert (phase h_waiting ≠ released) as Hp by (vm_compute; discriminate).
  split_and!; [exact h_waiting_reachable|exact Hp|apply not_elem_of_empty|].
  destruct (negotiation_abandoned h_waiting 8 ∅ h_waiting_reachable Hp
              (not_elem_of_empty _))
    as (h' & r' & Hreq & _ & Hrun & _ & Hv & Hgone & _).
  exists h', r'. split_and!; [exact Hreq|exact Hrun|exact Hv|exact Hgone].
Defined.

